(** * Bulk indexation helpers of trackdechet-sirene-search

    A shallow embedding of [src/indexation/elasticSearch.helpers.ts]:
    the chunked bulk dispatcher, the bulk executor with its per-item
    retry, the CSV line formatter, and the index roll-over protocol.

    Conventions of the embedding:
    - JavaScript numbers that hold integers are [Z];
    - [process.env] and CSV records are finite maps from strings to
      strings ([gmap string string]); a variable that is absent from
      the environment reads as [undefined], a column that is absent
      from a record reads as what every object inherits under that
      name from [Object.prototype], which is [undefined] for all but a
      dozen names;
    - arrays are lists; [Array.prototype.slice] is [js_slice];
    - asynchronous [request] calls are numbered in the order in which
      they are started, and a schedule decides which of them settle
      while the dispatcher is suspended on an [await];
    - calls to the Elasticsearch client are recorded in a trace of
      events, the client's answers are given by an oracle. *)

From Stdlib Require Import ZArith Lia Ascii.
From stdpp Require Import base decidable option list gmap strings sorting pretty.

Local Open Scope Z_scope.

(** ** JavaScript primitives used by the module *)

Module Js.

(** [Array.prototype.slice(start, end)]: negative bounds count from the
    end of the array, bounds are clamped to [0, length]. *)
Definition js_slice {A} (l : list A) (start end_ : Z) : list A :=
  let len := Z.of_nat (length l) in
  let k := if start <? 0 then Z.max (len + start) 0 else Z.min start len in
  let f := if end_ <? 0 then Z.max (len + end_) 0 else Z.min end_ len in
  take (Z.to_nat (f - k)) (drop (Z.to_nat k) l).

Definition is_digit (c : Ascii.ascii) : bool :=
  match Ascii.is_nat c with Some _ => true | None => false end.

Definition digit_val (c : Ascii.ascii) : Z :=
  match Ascii.is_nat c with Some n => Z.of_nat n | None => 0 end.

Fixpoint skip_space (s : string) : string :=
  match s with
  | String c r => if Ascii.is_space c then skip_space r else s
  | EmptyString => s
  end.

(** Longest prefix of decimal digits, read left to right; [None] when
    the prefix is empty. *)
Fixpoint digits (acc : option Z) (s : string) : option Z :=
  match s with
  | String c r =>
      if is_digit c
      then digits (Some (10 * default 0 acc + digit_val c)) r
      else acc
  | EmptyString => acc
  end.

(** [parseInt(s, 10)]; [None] stands for [NaN]. The result is the integer
    that the numeral denotes: it is the number the source holds as long
    as its magnitude is at most [2 ^ 53], beyond which the source's
    double is rounded. Of the white space that [parseInt] skips, only
    the ASCII part is modelled. *)
Definition parseInt (s : string) : option Z :=
  match skip_space s with
  | String "-"%char r => Z.opp <$> digits None r
  | String "+"%char r => digits None r
  | r => digits None r
  end.

(** A template literal [`${v}`] of a possibly undefined string. *)
Definition template (v : option string) : string :=
  match v with Some s => s | None => "undefined" end.

(** [v || d] on a possibly undefined string: the empty string is falsy. *)
Definition or_string (v : option string) (d : string) : string :=
  match v with
  | Some s => if decide (s = "") then d else s
  | None => d
  end.

(** [n || d] on a number: [NaN] and [0] are falsy. *)
Definition or_number (n : option Z) (d : Z) : Z :=
  match n with
  | Some v => if v =? 0 then d else v
  | None => d
  end.

End Js.

Import Js.

(** ** Data model *)

(** A CSV record: column name to value. *)
Abbreviation Doc := (gmap string string).

(** [process.env]. *)
Abbreviation Env := (gmap string string).

(** JSON values of the index settings and mappings. An object is the list
    of its properties. *)
#[warnings="-register-all"]
Inductive JsVal : Type :=
| JNum (n : Z)
| JStr (s : string)
| JObj (props : list (string * JsVal)).

Abbreviation JsObj := (list (string * JsVal)).

(** The header of an index operation, [{ index: { _id, _index, _type } }]. *)
Record IndexMeta : Type := mkMeta {
  _id : option string;
  _index : string;
  _type : string
}.

(** The elements of a flattened bulk body: operation headers and documents
    alternate. *)
Inductive BulkOperationContainer : Type :=
| OpIndex (m : IndexMeta)
| OpDoc (d : Doc).

(** One entry of [ElasticBulkNonFlatPayload]: the pair
    [[{ index: ... }, doc]]. *)
Abbreviation Line := (IndexMeta * Doc)%type.

(** [payload.flat()]. *)
Definition flat (payload : list Line) : list BulkOperationContainer :=
  flat_map (λ '(m, d), [OpIndex m; OpDoc d]) payload.

(** The argument handed to the callback of the CSV transform: an error,
    or a row. *)
Inductive CbArg : Type :=
| CbError (msg : string)
| CbRow (row : Doc).

(** [IndexProcessConfig] (declared in [./types]); only the fields this
    module reads. [dataFormatterFn] is taken already applied to
    [dataFormatterExtras], and as the function from the chunk to the
    value its promise resolves to: a hook that throws or rejects is
    outside this model. [transformCsv] is in continuation-passing
    style, as in the source: it receives the row and the callback, and
    its result is the sequence of callback invocations it performs. *)
Record IndexProcessConfig : Type := mkConfig {
  alias : string;
  idKey : string;
  mappings : option JsObj;
  settings : option JsObj;
  dataFormatterFn : option (list Line → list Line);
  transformCsv : option (Doc → (CbArg → list CbArg) → list CbArg)
}.

(** ** Configuration read from the environment *)

(** [CHUNK_SIZE = parseInt(`${process.env.INDEX_CHUNK_SIZE}`, 10) || 10_000]. *)
Definition CHUNK_SIZE (env : Env) : Z :=
  or_number (parseInt (template (env !! "INDEX_CHUNK_SIZE"))) 10000.

(** [maxConcurrentRequests] of [bulkIndexByChunks]:
    [isNaN(parseInt(env || "1", 10)) ? 2 : parseInt(env || "1", 10)]. *)
Definition maxConcurrentRequests (env : Env) : Z :=
  match parseInt (or_string (env !! "TD_SIRENE_INDEX_MAX_CONCURRENT_REQUESTS") "1") with
  | None => 2
  | Some n => n
  end.

(** ** The chunked dispatcher, [bulkIndexByChunks] *)

(** What the dispatcher observes of its [request] calls: a call is started
    (its synchronous prefix hands the chunk to the bulk executor), and
    later its promise settles. Calls are numbered in start order. *)
Inductive DispatchEvent : Type :=
| Start (id : nat) (chunk : list Line)
| Settle (id : nat).

(** State of one run of [bulkIndexByChunks]. [sched] is the schedule: one
    entry per [await], listing the calls that settle while the dispatcher
    is suspended there. *)
Record Dispatch : Type := mkDispatch {
  started : list (list Line);
  settled : list nat;
  promises : list nat;
  numberOfChunkRequests : Z;
  trace : list DispatchEvent;
  sched : list (list nat)
}.

Definition dispatch0 (sch : list (list nat)) : Dispatch :=
  mkDispatch [] [] [] 0 [] sch.

(** [request(indexName, indexConfig, chunk)] as seen by the dispatcher:
    the call is started and its promise is returned. *)
Definition start_request (chunk : list Line) (st : Dispatch) : nat * Dispatch :=
  let id := length (started st) in
  (id, mkDispatch (started st ++ [chunk]) (settled st) (promises st)
         (numberOfChunkRequests st) (trace st ++ [Start id chunk]) (sched st)).

Definition is_settled (st : Dispatch) (id : nat) : bool :=
  bool_decide (id ∈ settled st).

Definition is_pending (st : Dispatch) (id : nat) : bool :=
  bool_decide (id < length (started st))%nat && negb (is_settled st id).

(** A pending call settles; anything else is left as it is. *)
Definition settle_one (st : Dispatch) (id : nat) : Dispatch :=
  if is_pending st id
  then mkDispatch (started st) (settled st ++ [id]) (promises st)
         (numberOfChunkRequests st) (trace st ++ [Settle id]) (sched st)
  else st.

Definition settle_all (ids : list nat) (st : Dispatch) : Dispatch :=
  foldl settle_one st ids.

(** The dispatcher suspends: the calls named by the next entry of the
    schedule settle. *)
Definition suspend (st : Dispatch) : Dispatch :=
  match sched st with
  | [] => st
  | d :: rest =>
      settle_all d
        (mkDispatch (started st) (settled st) (promises st)
           (numberOfChunkRequests st) (trace st) rest)
  end.

(** [await p]: resumes once [p] has settled, after the calls named by the
    schedule. *)
Definition await_promise (id : nat) (st : Dispatch) : Dispatch :=
  settle_one (suspend st) id.

(** [await Promise.race(promises)]: resumes as soon as one promise of the
    array is settled, at once when one already is. When none is and the
    schedule names none, the earliest promise of the array is the one
    that settles. The array is never empty where the code races. *)
Definition await_race (st : Dispatch) : Dispatch :=
  let st' := suspend st in
  if existsb (is_settled st') (promises st') then st'
  else match promises st' with
       | p :: _ => settle_one st' p
       | [] => st'
       end.

(** [await Promise.all(promises)]: resumes once every promise of the array
    has settled. *)
Definition await_all (st : Dispatch) : Dispatch :=
  let st' := suspend st in
  settle_all (promises st') st'.

Definition push_promise (id : nat) (st : Dispatch) : Dispatch :=
  mkDispatch (started st) (settled st) (promises st ++ [id])
    (numberOfChunkRequests st) (trace st) (sched st).

Definition add_in_flight (d : Z) (st : Dispatch) : Dispatch :=
  mkDispatch (started st) (settled st) (promises st)
    (numberOfChunkRequests st + d) (trace st) (sched st).

Section Dispatcher.

(** [CHUNK_SIZE], [maxConcurrentRequests] and the batch. *)
Variables (C M : Z) (body : list Line).

(** The body of the [for] loop at offset [i]. *)
Definition iteration (i : Z) (st : Dispatch) : Dispatch :=
  let end_ := i + C in
  let slice := js_slice body i end_ in
  let '(promise, st) := start_request slice st in
  if M >? 1 then
    let st := add_in_flight 1 (push_promise promise st) in
    if numberOfChunkRequests st >=? M
    then add_in_flight (-1) (await_race st)
    else st
  else
    let '(again, st) := start_request slice st in
    await_promise again st.

(** [for (let i = 0; i < body.length; i += CHUNK_SIZE)], with fuel:
    [None] when the fuel runs out. *)
Fixpoint chunk_loop (fuel : nat) (i : Z) (st : Dispatch) : option Dispatch :=
  if i <? Z.of_nat (length body) then
    match fuel with
    | O => None
    | S fuel' => chunk_loop fuel' (i + C) (iteration i st)
    end
  else Some st.

Definition bulkIndexByChunks (fuel : nat) (sch : list (list nat)) : option Dispatch :=
  if C >? Z.of_nat (length body) then
    let '(p, st) := start_request body (dispatch0 sch) in
    Some (await_promise p st)
  else
    st ← chunk_loop fuel 0 (dispatch0 sch);
    Some (if bool_decide (0 < length (promises st))%nat then await_all st else st).

(** The [request] calls of one iteration: one under the concurrent
    branch, two under the sequential one. *)
Definition copies (slice : list Line) : list (list Line) :=
  if M >? 1 then [slice] else [slice; slice].

(** The slices taken by the loop from offset [i]. *)
Fixpoint slices (fuel : nat) (i : Z) : list (list Line) :=
  if i <? Z.of_nat (length body) then
    match fuel with
    | O => []
    | S fuel' => js_slice body i (i + C) :: slices fuel' (i + C)
    end
  else [].

End Dispatcher.

(** Number of calls started and not yet settled after a trace. *)
Fixpoint outstanding (tr : list DispatchEvent) : Z :=
  match tr with
  | [] => 0
  | Start _ _ :: r => outstanding r + 1
  | Settle _ :: r => outstanding r - 1
  end.

(** The largest number of simultaneously outstanding calls over a run:
    the maximum of [outstanding] over the prefixes of the trace. *)
Definition max_outstanding (tr : list DispatchEvent) : Z :=
  foldr Z.max 0 (map (λ n, outstanding (take n tr)) (seq 0 (S (length tr)))).


(** ** The bulk executor: [request], [requestBulkIndex], [logBulkErrorsAndRetry] *)

(** What a rejected client call throws. The [error] payload of a response
    item is opaque to this module: a string stands for it. *)
Inductive Exn : Type :=
| TypeError
| ClientError (msg : string).

(** One outcome of a bulk response item, [{ status, error? }]. *)
Record BulkResponseItem : Type := mkItem {
  status : option Z;
  error : option string
}.

(** A response item: an object keyed by operation type. The list holds
    its own properties in [Object.keys] order. *)
Abbreviation BulkResponseItemContainer := (list (string * BulkResponseItem)).

Record BulkResponse : Type := mkResponse {
  errors : bool;
  items : list BulkResponseItemContainer
}.

(** [ElasticBulkIndexError]. *)
Record ElasticBulkIndexError : Type := mkBulkError {
  err_status : Z;
  err_error : option string;
  err_body : option BulkOperationContainer
}.

(** The calls of the logger, one constructor per call site. *)
Inductive Log : Type :=
| InfoIndexing (n : nat) (indexName : string)
| WarnRetrying (id : option string) (indexName : string)
| ErrorRetrying (id : option string) (indexName : string) (err : Exn)
| ErrorBulkIndex (e : ElasticBulkIndexError)
| ErrorFatal (indexName : string) (err : Exn)
| ErrorMalformed (i : nat) (key : string) (doc : Doc).

(** The calls of the Elasticsearch client made by the executor. *)
Inductive ClientCall : Type :=
| CallBulk (body : list BulkOperationContainer)
| CallIndex (index : string) (id : option string)
    (body : option BulkOperationContainer).

Inductive Event : Type :=
| EvLog (l : Log)
| EvCall (c : ClientCall).

(** Computations of the executor: they extend the history of events and
    end normally or by a thrown exception. *)
Definition Exec (A : Type) : Type := list Event → list Event * (Exn + A).

Module ExecMonad.

Definition ret {A} (a : A) : Exec A := λ h, (h, inr a).

Definition bind {A B} (m : Exec A) (k : A → Exec B) : Exec B :=
  λ h, match m h with
       | (h', inr a) => k a h'
       | (h', inl e) => (h', inl e)
       end.

Definition throw {A} (e : Exn) : Exec A := λ h, (h, inl e).

Definition emit (e : Event) : Exec unit := λ h, (h ++ [e], inr tt).

(** [try { m } catch (err) { handler(err) }]. *)
Definition try_catch {A} (m : Exec A) (handler : Exn → Exec A) : Exec A :=
  λ h, match m h with
       | (h', inl e) => handler e h'
       | r => r
       end.

Definition lift {A} (r : Exn + A) : Exec A :=
  match r with inl e => throw e | inr a => ret a end.

Fixpoint for_each {A} (f : A → Exec unit) (l : list A) : Exec unit :=
  match l with
  | [] => ret tt
  | x :: r => bind (f x) (λ _, for_each f r)
  end.

End ExecMonad.

Import ExecMonad.

(** A step that, from every history, returns normally. *)
Definition returns_normally {A} (f : A → Exec unit) (x : A) : Prop :=
  ∀ h, ∃ evs, f x h = (h ++ evs, inr tt).

#[global] Instance exec_ret : MRet Exec := @ret.
#[global] Instance exec_bind : MBind Exec := λ A B k m, bind m k.

(** [action[opType]] on a response item. *)
Fixpoint item_get (action : BulkResponseItemContainer) (op : string)
  : option BulkResponseItem :=
  match action with
  | [] => None
  | (k, v) :: r => if decide (k = op) then Some v else item_get r op
  end.

(** [body[k * 2].index?._id]: reading [.index] of [undefined] throws. *)
Definition body_id (body : list BulkOperationContainer) (k : nat)
  : Exn + option string :=
  match body !! (k * 2)%nat with
  | None => inl TypeError
  | Some (OpIndex m) => inr (_id m)
  | Some (OpDoc _) => inr None
  end.

Section Executor.

(** The cluster as the executor sees it: its answer to a call, given
    the history of events so far. [client_bulk] throws, or returns a
    response ([None] for a falsy one); [client_index] throws or
    succeeds. *)
Variable client_bulk :
  list Event → list BulkOperationContainer → Exn + option BulkResponse.
Variable client_index :
  list Event → string → option string → option BulkOperationContainer →
  option Exn.

Definition call_bulk (body : list BulkOperationContainer)
  : Exec (option BulkResponse) :=
  λ h, (h ++ [EvCall (CallBulk body)], client_bulk h body).

Definition call_index (index : string) (id : option string)
    (doc : option BulkOperationContainer) : Exec unit :=
  λ h, (h ++ [EvCall (CallIndex index id doc)],
        match client_index h index id doc with
        | Some e => inl e
        | None => inr tt
        end).

(** The events of the retry of item [k] from history [h]: the warning,
    the single-document write, and the error logged when that write is
    rejected. *)
Definition retry_events (indexName : string)
    (body : list BulkOperationContainer) (k : nat) (id : option string)
    (h : list Event) : list Event :=
  [EvLog (WarnRetrying id indexName);
   EvCall (CallIndex indexName id (body !! (k * 2 + 1)%nat))]
  ++ match client_index (h ++ [EvLog (WarnRetrying id indexName)])
             indexName id (body !! (k * 2 + 1)%nat) with
     | Some err => [EvLog (ErrorRetrying id indexName err)]
     | None => []
     end.

(** The [elasticBulkIndexError] logged for outcome [it] of item [k]. *)
Definition bulk_error_of (body : list BulkOperationContainer) (k : nat)
    (it : BulkResponseItem) : ElasticBulkIndexError :=
  mkBulkError (default 0 (status it)) (error it) (body !! (k * 2 + 1)%nat).

(** The body of the inner loop of [logBulkErrorsAndRetry], for
    operation key [operation] of response item [k]. *)
Definition handle_operation (indexName : string)
    (body : list BulkOperationContainer) (k : nat)
    (action : BulkResponseItemContainer) (operation : string) : Exec unit :=
  let opType := operation in
  let res := item_get action opType in
  if bool_decide (opType ≠ "") && bool_decide (is_Some (res ≫= error)) then
    (if bool_decide (res ≫= status = Some 429) then
       id ← lift (body_id body k);
       emit (EvLog (WarnRetrying id indexName));;
       try_catch
         (call_index indexName id (body !! (k * 2 + 1)%nat))
         (λ err, emit (EvLog (ErrorRetrying id indexName err)))
     else ret tt);;
    emit (EvLog (ErrorBulkIndex
      (mkBulkError (default 0 (res ≫= status)) (res ≫= error)
         (body !! (k * 2 + 1)%nat))))
  else ret tt.

Definition handle_item (indexName : string)
    (body : list BulkOperationContainer) (k : nat)
    (action : BulkResponseItemContainer) : Exec unit :=
  for_each (handle_operation indexName body k action) action.*1.

(** [for (let k = 0; k < bulkResponse.items.length; k++)] over the items
    paired with their position [k]. *)
Definition logBulkErrorsAndRetry (indexName : string)
    (bulkResponse : BulkResponse) (body : list BulkOperationContainer)
  : Exec unit :=
  if errors bulkResponse
  then for_each (λ ka, handle_item indexName body ka.1 ka.2)
         (imap pair (items bulkResponse))
  else ret tt.

Definition requestBulkIndex (indexName : string)
    (body : list BulkOperationContainer) : Exec unit :=
  if bool_decide (body = []) then ret tt
  else
    try_catch
      (bulkResponse ← call_bulk body;
       match bulkResponse with
       | Some r => logBulkErrorsAndRetry indexName r body
       | None => ret tt
       end)
      (λ bulkIndexError, emit (EvLog (ErrorFatal indexName bulkIndexError))).

(** The body that [request] hands to [requestBulkIndex], once the
    formatter, if any, has resolved. *)
Definition bulk_body (indexConfig : IndexProcessConfig)
    (bodyChunk : list Line) : list BulkOperationContainer :=
  match dataFormatterFn indexConfig with
  | Some f => flat (f bodyChunk)
  | None => flat bodyChunk
  end.

Definition request (indexName : string) (indexConfig : IndexProcessConfig)
    (bodyChunk : list Line) : Exec unit :=
  (if bool_decide (bodyChunk ≠ [])
   then emit (EvLog (InfoIndexing (length bodyChunk) indexName))
   else ret tt);;
  requestBulkIndex indexName (bulk_body indexConfig bodyChunk).

End Executor.

(** The bulk-write calls and the single-document writes of a history. *)
Definition bulk_calls (h : list Event) : list (list BulkOperationContainer) :=
  omap (λ e, match e with EvCall (CallBulk b) => Some b | _ => None end) h.

Definition index_calls (h : list Event)
  : list (string * option string * option BulkOperationContainer) :=
  omap (λ e, match e with
             | EvCall (CallIndex i id d) => Some (i, id, d)
             | _ => None
             end) h.

(** The bulk-write calls issued by the [request] calls of a dispatch: the
    executor issues one for each chunk whose body is not empty. *)
Definition dispatched_bulk_calls (indexConfig : IndexProcessConfig)
    (st : Dispatch) : list (list BulkOperationContainer) :=
  filter (λ b, b ≠ []) (bulk_body indexConfig <$> started st).

(** A computation that issues no bulk write. *)
Definition quiet {A} (m : Exec A) : Prop :=
  ∀ h, ∃ evs, (m h).1 = h ++ evs ∧ bulk_calls evs = [].

(** ** The batch formatter: the [writev] callback of the writable stream *)

(** What reading a property of a record can give: the string of a column
    of the record, or a member that every object inherits from
    [Object.prototype], a function (with its [length]) or an object. *)
Inductive JsProp : Type :=
| PropString (s : string)
| PropFunction (arity : nat)
| PropObject.

(** The members of [Object.prototype]. *)
Definition object_prototype : list (string * JsProp) :=
  [("constructor", PropFunction 1);
   ("hasOwnProperty", PropFunction 1);
   ("isPrototypeOf", PropFunction 1);
   ("propertyIsEnumerable", PropFunction 1);
   ("toLocaleString", PropFunction 0);
   ("toString", PropFunction 0);
   ("valueOf", PropFunction 0);
   ("__defineGetter__", PropFunction 2);
   ("__defineSetter__", PropFunction 2);
   ("__lookupGetter__", PropFunction 1);
   ("__lookupSetter__", PropFunction 1);
   ("__proto__", PropObject)].

Fixpoint assoc_get (key : string) (l : list (string * JsProp))
  : option JsProp :=
  match l with
  | [] => None
  | (k, v) :: r => if decide (k = key) then Some v else assoc_get key r
  end.

Definition prototype_get (key : string) : option JsProp :=
  assoc_get key object_prototype.

(** [doc[key]]: the column of the record when it has one of that name,
    else what the record inherits under that name; [None] stands for
    [undefined]. *)
Definition get_prop (doc : Doc) (key : string) : option JsProp :=
  match doc !! key with
  | Some v => Some (PropString v)
  | None => prototype_get key
  end.

(** [v.length], [None] for [undefined]. *)
Definition prop_length (v : JsProp) : option nat :=
  match v with
  | PropString s => Some (String.length s)
  | PropFunction n => Some n
  | PropObject => None
  end.

(** [v === key] for a string [key]. *)
Definition prop_is (v : JsProp) (key : string) : bool :=
  match v with
  | PropString s => bool_decide (s = key)
  | _ => false
  end.

(** The string that [v] gives as [_id]; a value that is not a string gives
    no string id. *)
Definition prop_id (v : JsProp) : option string :=
  match v with
  | PropString s => Some s
  | _ => None
  end.

(** The callback of [csvLines.map] for line [i] holding record [doc]:
    [doc[idKey] === undefined || !doc[idKey].length] drops and logs,
    [doc[idKey] === idKey] drops, anything else is kept. *)
Definition format_line (indexConfig : IndexProcessConfig) (indexName : string)
    (i : nat) (doc : Doc) : Exec (option Line) :=
  match get_prop doc (idKey indexConfig) with
  | None =>
      emit (EvLog (ErrorMalformed i (idKey indexConfig) doc));; mret None
  | Some v =>
      if bool_decide (default 0%nat (prop_length v) = 0%nat) then
        emit (EvLog (ErrorMalformed i (idKey indexConfig) doc));; mret None
      else if prop_is v (idKey indexConfig) then
        mret None
      else
        mret (Some (mkMeta (prop_id v) indexName "_doc", doc))
  end.

(** [csvLines.map((chunk, i) => ...)], from line [i]. *)
Fixpoint format_lines (indexConfig : IndexProcessConfig) (indexName : string)
    (i : nat) (csvLines : list Doc) : Exec (list (option Line)) :=
  match csvLines with
  | [] => mret []
  | doc :: r =>
      line ← format_line indexConfig indexName i doc;
      rest ← format_lines indexConfig indexName (S i) r;
      mret (line :: rest)
  end.


(** ** The CSV transform installed by [streamReadAndIndex] *)

(** [(data, callback) => { if (!!indexConfig.transformCsv) {
      indexConfig.transformCsv(data, callback); } }]:
    the result lists the invocations of [callback]. *)
Definition csv_transform (indexConfig : IndexProcessConfig) (data : Doc)
    (callback : CbArg → list CbArg) : list CbArg :=
  match transformCsv indexConfig with
  | Some f => f data callback
  | None => []
  end.

Inductive ParseOutcome : Type :=
| Ended
| Stalled
| Failed (msg : string).

(** The row loop of the CSV parser with an asynchronous transform: rows
    are taken one at a time; a row is pushed downstream when the
    transform hands it to the callback, the stream fails when the
    callback receives an error, and the next row is taken up only once
    the callback has been invoked. A callback that is never invoked
    stalls the stream. *)
Fixpoint parse_rows (indexConfig : IndexProcessConfig) (rows : list Doc)
  : list Doc * ParseOutcome :=
  match rows with
  | [] => ([], Ended)
  | data :: rest =>
      match csv_transform indexConfig data (λ a, [a]) with
      | [] => ([], Stalled)
      | CbError msg :: _ => ([], Failed msg)
      | CbRow row :: _ =>
          let '(out, o) := parse_rows indexConfig rest in (row :: out, o)
      end
  end.

(** ** The generation manager *)

(** Object spread, [{ ...o, ...src }]: the properties of [src] are set on
    [o] in order, a property that exists keeps its place. *)
Fixpoint obj_set (k : string) (v : JsVal) (o : JsObj) : JsObj :=
  match o with
  | [] => [(k, v)]
  | (k', v') :: r =>
      if decide (k' = k) then (k, v) :: r else (k', v') :: obj_set k v r
  end.

Definition spread (o src : JsObj) : JsObj :=
  foldl (λ acc kv, obj_set kv.1 kv.2 acc) o src.

Fixpoint obj_get (k : string) (o : JsObj) : option JsVal :=
  match o with
  | [] => None
  | (k', v) :: r => if decide (k' = k) then Some v else obj_get k r
  end.

(** [v && { key: v }] under a spread: nothing when [v] is undefined. *)
Definition and_prop (key : string) (v : option JsObj) : JsObj :=
  match v with
  | Some o => [(key, JObj o)]
  | None => []
  end.

Definition as_obj (v : option JsVal) : JsObj :=
  match v with
  | Some (JObj o) => o
  | _ => []
  end.

(** An index of the cluster: its mappings and its settings. *)
Record IndexState : Type := mkIndexState {
  ix_mappings : JsObj;
  ix_settings : JsObj
}.

(** The messages logged by the generation manager. *)
Inductive GenLog : Type :=
| InfoCreated (indexName : string)
| InfoSettingUp (indexAlias : string)
| InfoPointing (indexAlias indexName : string)
| InfoRemovedPointers (bindedIndexes : list string)
| InfoRemovingOld (oldIndices : list string).

(** The cluster as the index and alias administration calls see it: the
    indices by name, the indices each alias is bound to, and the
    messages logged so far. *)
Record World : Type := mkWorld {
  indices : gmap string IndexState;
  bindings : gmap string (gset string);
  logged : list GenLog
}.

Definition Admin (A : Type) : Type := World → Exn + (A * World).

#[global] Instance admin_ret : MRet Admin := λ A a w, inr (a, w).
#[global] Instance admin_bind : MBind Admin :=
  λ A B k m w, match m w with
               | inl e => inl e
               | inr (a, w') => k a w'
               end.

Inductive AliasAction : Type :=
| ActRemove (ixs : list string) (al : string)
| ActAdd (ix : string) (al : string).

(** The administration calls of the Elasticsearch client. The cluster is
    an external service: each call is given the effect its documentation
    describes, on the part of the cluster state this module depends on.
    Index names and patterns are taken without wildcard or comma
    characters of their own. *)
Module Client.

Definition index_not_found : Exn := ClientError "index_not_found_exception".
Definition already_exists : Exn :=
  ClientError "resource_already_exists_exception".

Definition info (l : GenLog) : Admin unit :=
  λ w, inr (tt, mkWorld (indices w) (bindings w) (logged w ++ [l])).

Definition bound (w : World) (al : string) : gset string :=
  default ∅ (bindings w !! al).

(** [client.indices.create({ index, body })]. *)
Definition indices_create (index : string) (body : JsObj) : Admin unit :=
  λ w, match indices w !! index with
       | Some _ => inl already_exists
       | None =>
           inr (tt, mkWorld
                      (<[index := mkIndexState
                                    (as_obj (obj_get "mappings" body))
                                    (as_obj (obj_get "settings" body))]>
                         (indices w))
                      (bindings w) (logged w))
       end.

(** [client.cat.aliases({ name })], mapped to the index names. *)
Definition cat_aliases (name : string) : Admin (list string) :=
  λ w, inr (elements (bound w name), w).

(** [client.indices.putSettings({ index, body: { index: body } })]:
    the given settings are set on the index, the others are kept. *)
Definition indices_putSettings (index : string) (body : JsObj) : Admin unit :=
  λ w, match indices w !! index with
       | None => inl index_not_found
       | Some ix =>
           inr (tt, mkWorld
                      (<[index := mkIndexState (ix_mappings ix)
                                    (spread (ix_settings ix) body)]>
                         (indices w))
                      (bindings w) (logged w))
       end.

Definition action_indices (a : AliasAction) : list string :=
  match a with
  | ActRemove ixs _ => ixs
  | ActAdd ix _ => [ix]
  end.

Definition apply_action (b : gmap string (gset string)) (a : AliasAction)
  : gmap string (gset string) :=
  match a with
  | ActRemove ixs al => <[al := default ∅ (b !! al) ∖ list_to_set ixs]> b
  | ActAdd ix al => <[al := default ∅ (b !! al) ∪ {[ix]}]> b
  end.

(** [client.indices.updateAliases({ body: { actions } })]: the actions
    are applied in order as one atomic change; the call is rejected
    when an action names an index that does not exist. *)
Definition indices_updateAliases (actions : list AliasAction) : Admin unit :=
  λ w, if bool_decide (Forall (λ ix, is_Some (indices w !! ix))
                         (actions ≫= action_indices))
       then inr (tt, mkWorld (indices w)
                       (foldl apply_action (bindings w) actions) (logged w))
       else inl index_not_found.

(** [client.cat.indices({ index: prefix + "*" })], mapped to the index
    names. *)
Definition cat_indices (pre : string) : Admin (list string) :=
  λ w, inr (elements (filter (λ n, String.prefix pre n = true)
                        (dom (indices w))), w).

(** [client.indices.delete({ index: names.join(",") })]: the indices are
    deleted, and with them their alias bindings. *)
Definition indices_delete (names : list string) : Admin unit :=
  λ w, if bool_decide (Forall (λ ix, is_Some (indices w !! ix)) names)
       then inr (tt, mkWorld
                       (foldr delete (indices w) names)
                       ((λ s, s ∖ list_to_set names) <$> bindings w)
                       (logged w))
       else inl index_not_found.

End Client.

Section GenerationManager.

(** [INDEX_ALIAS_NAME_SEPARATOR] (declared in [./indexInsee.helpers]) and
    [pjson.version]. *)
Variables (INDEX_ALIAS_NAME_SEPARATOR version : string).
Variable env : Env.

(** [getIndexVersionName], at clock reading [now]. *)
Definition getIndexVersionName (indexConfig : IndexProcessConfig) (now : Z)
  : string :=
  alias indexConfig +:+ INDEX_ALIAS_NAME_SEPARATOR +:+ version
    +:+ INDEX_ALIAS_NAME_SEPARATOR +:+ pretty now.

(** The settings that [createIndexRelease] writes in the request. *)
Definition indexing_settings : JsObj :=
  [("refresh_interval", JNum (-1)); ("number_of_replicas", JNum 0)].

(** The [body] of the create request:
    [{ ...(mappings && { mappings }), ...{ settings: {...} },
       ...(settings && { settings }) }]. *)
Definition create_body (indexConfig : IndexProcessConfig) : JsObj :=
  spread
    (spread
       (spread [] (and_prop "mappings" (mappings indexConfig)))
       [("settings", JObj indexing_settings)])
    (and_prop "settings" (settings indexConfig)).

Definition createIndexRelease (indexConfig : IndexProcessConfig) (now : Z)
  : Admin string :=
  let indexName := getIndexVersionName indexConfig now in
  Client.indices_create indexName (create_body indexConfig);;
  Client.info (InfoCreated indexName);;
  mret indexName.

(** The pattern of [client.cat.indices] in [finalizeNewIndexRelease],
    without its final [*]. *)
Definition release_prefix (indexAlias : string) : string :=
  indexAlias +:+ INDEX_ALIAS_NAME_SEPARATOR +:+ version
    +:+ INDEX_ALIAS_NAME_SEPARATOR.

Definition final_settings : JsObj :=
  [("number_of_replicas",
    JStr (or_string (env !! "TD_SIRENE_INDEX_NB_REPLICAS") "3"));
   ("refresh_interval",
    JStr (or_string (env !! "TD_SIRENE_INDEX_REFRESH_INTERVAL") "1s"))].

Definition finalizeNewIndexRelease (indexAlias indexName : string)
  : Admin unit :=
  bindedIndexes ← Client.cat_aliases indexAlias;
  Client.info (InfoSettingUp indexAlias);;
  Client.indices_putSettings indexName final_settings;;
  Client.info (InfoPointing indexAlias indexName);;
  Client.indices_updateAliases
    ((if bool_decide (bindedIndexes ≠ [])
      then [ActRemove bindedIndexes indexAlias] else [])
     ++ [ActAdd indexName indexAlias]);;
  (if bool_decide (bindedIndexes ≠ [])
   then Client.info (InfoRemovedPointers bindedIndexes) else mret tt);;
  names ← Client.cat_indices (release_prefix indexAlias);
  let oldIndices :=
    removelast
      (merge_sort String.le (filter (λ name, name ≠ indexName) names)) in
  if bool_decide (oldIndices ≠ []) then
    Client.info (InfoRemovingOld oldIndices);;
    Client.indices_delete oldIndices
  else mret tt.

(** The index [ix] once [final_settings] are set on it. *)
Definition settle_settings (ix : IndexState) : IndexState :=
  mkIndexState (ix_mappings ix)
    (spread (ix_settings ix) final_settings).

(** The generations of the running version other than [indexName], in
    sorted order: [oldIndices] before its [pop]. *)
Definition older (w : World) (indexAlias indexName : string) : list string :=
  merge_sort String.le
    (filter (λ name, name ≠ indexName)
       (elements (filter (λ n, String.prefix (release_prefix indexAlias) n = true)
                    (dom (indices w))))).

End GenerationManager.

(** Every index the alias is bound to exists. *)
Definition alias_sound (w : World) (al : string) : Prop :=
  ∀ g, g ∈ Client.bound w al → is_Some (indices w !! g).

(** ** Sample inputs *)

Definition sample_line (id : string) : Line :=
  (mkMeta (Some id) "sirene-1.0.0-300" "_doc", {["siret" := id]}).

Definition plain_config : IndexProcessConfig :=
  mkConfig "sirene" "siret" None None None None.

(** A caller that only asks for three shards. *)
Definition sharded_config : IndexProcessConfig :=
  mkConfig "sirene" "siret" None (Some [("number_of_shards", JNum 3)])
    None None.


(** An environment that sets the chunk size to 2 and nothing else. *)
Definition small_chunk_env : Env := {["INDEX_CHUNK_SIZE" := "2"]}.

(** An environment that sets the chunk size to 1 and the concurrency cap
    to 2. *)
Definition windowed_env : Env :=
  <["INDEX_CHUNK_SIZE" := "1"]>
    {["TD_SIRENE_INDEX_MAX_CONCURRENT_REQUESTS" := "2"]}.

(** A cluster on which the alias is bound to a first release, and a later
    staging run of the same version has left its generation unbound; the
    third generation is the one being released. *)
Definition staged_world : World :=
  mkWorld
    (<["sirene-1.0.0-100" := mkIndexState [] []]>
       (<["sirene-1.0.0-200" := mkIndexState [] []]>
          (<["sirene-1.0.0-300" := mkIndexState [] []]> ∅)))
    {["sirene" := {["sirene-1.0.0-100"]}]}
    [].

Definition staged_world_after : World :=
  match finalizeNewIndexRelease "-" "1.0.0" ∅ "sirene" "sirene-1.0.0-300"
          staged_world with
  | inr (_, w) => w
  | inl _ => staged_world
  end.

(** A bulk response to three lines: the second is rejected with 429, the
    third with a mapping error. *)
Definition sample_response : BulkResponse :=
  mkResponse true
    [[("index", mkItem (Some 201) None)];
     [("index", mkItem (Some 429) (Some "es_rejected_execution_exception"))];
     [("index", mkItem (Some 400) (Some "mapper_parsing_exception"))]].

Definition sample_body : list BulkOperationContainer :=
  flat [sample_line "111"; sample_line "222"; sample_line "333"].

(** A cluster that answers every bulk write with [sample_response] and
    rejects every single-document write. *)
Definition sample_bulk (h : list Event) (body : list BulkOperationContainer)
  : Exn + option BulkResponse := inr (Some sample_response).

Definition failing_bulk (h : list Event) (body : list BulkOperationContainer)
  : Exn + option BulkResponse := inl (ClientError "ConnectionError").

Definition rejecting_index (h : list Event) (index : string)
    (id : option string) (doc : option BulkOperationContainer) : option Exn :=
  Some (ClientError "es_rejected_execution_exception").

(** ** Readings of a history *)

(** The bulk-index errors logged in a history. *)
Definition error_logs (h : list Event) : list ElasticBulkIndexError :=
  omap (λ e, match e with EvLog (ErrorBulkIndex b) => Some b | _ => None end) h.

(** The outcome under operation key [op] of a response item when the loop
    takes it for a failure: the key is not empty and the outcome carries
    an error. *)
Definition failed_outcome (action : BulkResponseItemContainer) (op : string)
  : option BulkResponseItem :=
  if bool_decide (op ≠ "") then
    it ← item_get action op;
    if error it is Some _ then Some it else None
  else None.

(** The failed outcomes of a response with the position of their item, in
    the order in which the loop meets them. *)
Definition error_outcomes (its : list BulkResponseItemContainer)
  : list (nat * BulkResponseItem) :=
  imap pair its ≫= λ ka, pair ka.1 <$> omap (failed_outcome ka.2) ka.2.*1.

(** [body[k * 2].index?._id] where nothing is thrown. *)
Definition id_at (body : list BulkOperationContainer) (k : nat)
  : option string :=
  match body !! (k * 2)%nat with
  | Some (OpIndex m) => _id m
  | _ => None
  end.

(** The single-document write that retries outcome [it] of item [k]. *)
Definition retry_of (indexName : string) (body : list BulkOperationContainer)
    (kit : nat * BulkResponseItem)
  : string * option string * option BulkOperationContainer :=
  (indexName, id_at body kit.1, body !! (kit.1 * 2 + 1)%nat).

(** The single-document write that retries outcome [kit.2] of item
    [kit.1] when the body is the flattened chunk [lines]: it is
    addressed to the id of line [kit.1] and carries its record. *)
Definition line_retry (indexName : string) (lines : list Line)
    (kit : nat * BulkResponseItem)
  : string * option string * option BulkOperationContainer :=
  (indexName, lines !! kit.1 ≫= (λ l, _id l.1),
   (λ l, OpDoc l.2) <$> lines !! kit.1).

(** ** Readings of a batch of records *)

(** These read the columns of the record alone: they describe the
    formatter for an identifier column that no object inherits
    ([prototype_get] gives [None]).

    The identifier under which the formatter keeps a record: the value
    of the identifier column when it is neither missing, nor empty, nor
    the name of the column. *)
Definition accepted_id (indexConfig : IndexProcessConfig) (doc : Doc)
  : option string :=
  v ← doc !! idKey indexConfig;
  if bool_decide (v ≠ "" ∧ v ≠ idKey indexConfig) then Some v else None.

(** The write action of a record that is kept. *)
Definition accepted_line (indexConfig : IndexProcessConfig)
    (indexName : string) (doc : Doc) : option Line :=
  (λ v, (mkMeta (Some v) indexName "_doc", doc)) <$> accepted_id indexConfig doc.

(** The message logged for line [i] when its record has no identifier. *)
Definition malformed_log (indexConfig : IndexProcessConfig) (i : nat)
    (doc : Doc) : option Event :=
  if bool_decide (doc !! idKey indexConfig = None
                  ∨ doc !! idKey indexConfig = Some "")
  then Some (EvLog (ErrorMalformed i (idKey indexConfig) doc))
  else None.

(** ** The books of the dispatcher *)

(** The books of the dispatcher are in order: no call has settled twice,
    only started calls have settled, and the calls outstanding after the
    trace are the started ones that have not settled. *)
Definition accounted (st : Dispatch) : Prop :=
  NoDup (settled st)
  ∧ (∀ id, id ∈ settled st → (id < length (started st))%nat)
  ∧ outstanding (trace st)
    = Z.of_nat (length (started st)) - Z.of_nat (length (settled st)).

(** ** More sample inputs *)

(** A response with one item more than the body of one line has pairs:
    the second item is rejected with 429. *)
Definition overlong_response : BulkResponse :=
  mkResponse true
    [[("index", mkItem (Some 201) None)];
     [("index", mkItem (Some 429) (Some "es_rejected_execution_exception"))]].

Definition overlong_bulk (h : list Event) (body : list BulkOperationContainer)
  : Exn + option BulkResponse := inr (Some overlong_response).

(** Three records: one without identifier, the header row, one valid. *)
Definition sample_records : list Doc :=
  [{["nom" := "ACME"]}; {["siret" := "siret"]}; {["siret" := "111"]}].

(** The cluster of [staged_world] once the third generation is released. *)
Definition released_world : World := staged_world_after.

(** * Properties *)

(** ** The dispatcher *)

Section DispatcherFacts.

Variables (C M : Z) (body : list Line).

Lemma started_settle_one st id : started (settle_one st id) = started st.
Proof. unfold settle_one. by destruct (is_pending st id). Qed.

Lemma started_settle_all ids st : started (settle_all ids st) = started st.
Proof.
  unfold settle_all. revert st.
  induction ids as [|id ids IH]; intros st; simpl; [done|].
  by rewrite IH, started_settle_one.
Qed.

Lemma started_suspend st : started (suspend st) = started st.
Proof.
  unfold suspend. destruct (sched st); [done|].
  by rewrite started_settle_all.
Qed.

Lemma started_await_promise id st :
  started (await_promise id st) = started st.
Proof.
  unfold await_promise. by rewrite started_settle_one, started_suspend.
Qed.

Lemma started_await_race st : started (await_race st) = started st.
Proof.
  unfold await_race.
  destruct (existsb _ _); [apply started_suspend|].
  destruct (promises (suspend st));
    [|rewrite started_settle_one]; apply started_suspend.
Qed.

Lemma started_await_all st : started (await_all st) = started st.
Proof.
  unfold await_all. by rewrite started_settle_all, started_suspend.
Qed.

Lemma promises_settle_one st id : promises (settle_one st id) = promises st.
Proof. unfold settle_one. by destruct (is_pending st id). Qed.

Lemma promises_settle_all ids st : promises (settle_all ids st) = promises st.
Proof.
  unfold settle_all. revert st.
  induction ids as [|id ids IH]; intros st; simpl; [done|].
  by rewrite IH, promises_settle_one.
Qed.

Lemma promises_suspend st : promises (suspend st) = promises st.
Proof.
  unfold suspend. destruct (sched st); [done|].
  by rewrite promises_settle_all.
Qed.

(** Suspending only appends to the trace. *)
Lemma trace_settle_one st id : ∃ tr, trace (settle_one st id) = trace st ++ tr.
Proof.
  unfold settle_one. destruct (is_pending st id); simpl; [eauto|].
  exists []. by rewrite app_nil_r.
Qed.

Lemma trace_settle_all ids st :
  ∃ tr, trace (settle_all ids st) = trace st ++ tr.
Proof.
  unfold settle_all. revert st.
  induction ids as [|id ids IH]; intros st; simpl.
  - exists []. by rewrite app_nil_r.
  - destruct (IH (settle_one st id)) as [tr2 H2].
    destruct (trace_settle_one st id) as [tr1 H1].
    exists (tr1 ++ tr2). by rewrite H2, H1, app_assoc.
Qed.

Lemma trace_suspend st : ∃ tr, trace (suspend st) = trace st ++ tr.
Proof.
  unfold suspend. destruct (sched st) as [|d r].
  - exists []. by rewrite app_nil_r.
  - apply (trace_settle_all d (mkDispatch _ _ _ _ _ _)).
Qed.

Lemma trace_await_promise id st :
  ∃ tr, trace (await_promise id st) = trace st ++ tr.
Proof.
  unfold await_promise.
  destruct (trace_suspend st) as [tr1 H1].
  destruct (trace_settle_one (suspend st) id) as [tr2 H2].
  exists (tr1 ++ tr2). by rewrite H2, H1, app_assoc.
Qed.

Lemma started_iteration i st :
  started (iteration C M body i st)
  = started st ++ copies M (js_slice body i (i + C)).
Proof.
  unfold iteration, copies. simpl.
  destruct (M >? 1).
  - destruct (_ >=? M); simpl; [|done].
    by rewrite started_await_race.
  - rewrite started_await_promise. simpl. by rewrite <- app_assoc.
Qed.

Lemma chunk_loop_started fuel : ∀ i st st',
  chunk_loop C M body fuel i st = Some st' →
  started st' = started st ++ (slices C body fuel i ≫= copies M).
Proof.
  induction fuel as [|fuel IH]; intros i st st'; simpl.
  - destruct (i <? _); [done|]. intros [= <-]. by rewrite app_nil_r.
  - destruct (i <? _).
    + intros H. apply IH in H. rewrite H, started_iteration.
      by rewrite <- app_assoc.
    + intros [= <-]. by rewrite app_nil_r.
Qed.

(** A chunk size that is not positive keeps the loop at an offset below
    the length of a batch that is not empty: no amount of fuel lets it
    end. *)
Lemma chunk_loop_never_ends fuel : ∀ i st,
  C ≤ 0 → i < Z.of_nat (length body) →
  chunk_loop C M body fuel i st = None.
Proof.
  induction fuel as [|fuel IH]; intros i st HC Hi; simpl;
    destruct (Z.ltb_spec i (Z.of_nat (length body))); try lia; [done|].
  apply IH; lia.
Qed.

Lemma bulkIndexByChunks_never_ends fuel sch :
  C ≤ 0 → body ≠ [] → bulkIndexByChunks C M body fuel sch = None.
Proof.
  intros HC Hb. unfold bulkIndexByChunks.
  destruct (Z.gtb_spec C (Z.of_nat (length body))); [lia|].
  rewrite chunk_loop_never_ends; [done..|].
  destruct body; [done|]. simpl. lia.
Qed.

Hypothesis C_pos : 0 < C.

Lemma chunk_loop_total fuel : ∀ i st,
  Z.of_nat (length body) - i ≤ Z.of_nat fuel →
  is_Some (chunk_loop C M body fuel i st).
Proof.
  induction fuel as [|fuel IH]; intros i st Hf; simpl.
  - destruct (Z.ltb_spec i (Z.of_nat (length body))); [lia|eauto].
  - destruct (Z.ltb_spec i (Z.of_nat (length body))); [|eauto].
    apply IH. lia.
Qed.

Lemma js_slice_chunk i :
  0 ≤ i →
  js_slice body i (i + C) = take (Z.to_nat C) (drop (Z.to_nat i) body).
Proof.
  intros Hi. unfold js_slice.
  destruct (Z.ltb_spec i 0); [lia|].
  destruct (Z.ltb_spec (i + C) 0); [lia|].
  set (n := Z.of_nat (length body)).
  destruct (Z.le_gt_cases n i).
  - rewrite (drop_ge body (Z.to_nat (Z.min i n))) by lia.
    rewrite (drop_ge body (Z.to_nat i)) by lia.
    by rewrite !take_nil.
  - replace (Z.min i n) with i by lia.
    destruct (Z.le_gt_cases (i + C) n).
    + f_equal. lia.
    + rewrite !take_ge; [done| |]; rewrite length_drop; lia.
Qed.

Lemma slices_concat fuel : ∀ i,
  0 ≤ i → Z.of_nat (length body) - i ≤ Z.of_nat fuel →
  concat (slices C body fuel i) = drop (Z.to_nat i) body.
Proof.
  induction fuel as [|fuel IH]; intros i Hi Hf; simpl.
  - destruct (Z.ltb_spec i (Z.of_nat (length body))); [lia|].
    simpl. by rewrite drop_ge by lia.
  - destruct (Z.ltb_spec i (Z.of_nat (length body))).
    + simpl. rewrite IH, js_slice_chunk by lia.
      replace (Z.to_nat (i + C)) with (Z.to_nat i + Z.to_nat C)%nat by lia.
      rewrite <- drop_drop. apply take_drop.
    + simpl. by rewrite drop_ge by lia.
Qed.

Lemma slices_bounded fuel : ∀ i,
  0 ≤ i →
  Forall (λ s, (0 < length s ≤ Z.to_nat C)%nat) (slices C body fuel i).
Proof.
  induction fuel as [|fuel IH]; intros i Hi; simpl.
  - destruct (i <? _); constructor.
  - destruct (Z.ltb_spec i (Z.of_nat (length body))); [|constructor].
    constructor; [|apply IH; lia].
    rewrite js_slice_chunk, length_take, length_drop by lia. lia.
Qed.

Lemma slices_length fuel : ∀ i,
  0 ≤ i < Z.of_nat (length body) + C →
  Z.of_nat (length body) - i ≤ Z.of_nat fuel →
  Z.of_nat (length (slices C body fuel i))
  = (Z.of_nat (length body) - i + C - 1) / C.
Proof.
  induction fuel as [|fuel IH]; intros i Hi Hf; simpl.
  - destruct (Z.ltb_spec i (Z.of_nat (length body))); [lia|].
    simpl. symmetry. apply Z.div_small. lia.
  - destruct (Z.ltb_spec i (Z.of_nat (length body))).
    + simpl length. rewrite Nat2Z.inj_succ, IH by lia.
      replace (Z.of_nat (length body) - i + C - 1)
        with (Z.of_nat (length body) - (i + C) + C - 1 + 1 * C) by lia.
      rewrite Z.div_add by lia. lia.
    + simpl. symmetry. apply Z.div_small. lia.
Qed.

Lemma bind_singleton (l : list (list Line)) : l ≫= (λ s, [s]) = l.
Proof. induction l as [|x l IH]; [done|]. csimpl. by f_equal. Qed.

Lemma bind_twice_length (l : list (list Line)) :
  length (l ≫= (λ s, [s; s])) = (2 * length l)%nat.
Proof. induction l as [|x l IH]; [done|]. csimpl. rewrite IH. lia. Qed.

End DispatcherFacts.

Lemma flat_nil (s : list Line) : flat s = [] ↔ s = [].
Proof. split; [|by intros ->]. by destruct s as [|[m d] s]. Qed.

Lemma dispatched_all (indexConfig : IndexProcessConfig) (st : Dispatch) :
  dataFormatterFn indexConfig = None →
  Forall (λ s, s ≠ []) (started st) →
  dispatched_bulk_calls indexConfig st = flat <$> started st.
Proof.
  intros Hf Hne. unfold dispatched_bulk_calls, bulk_body. rewrite Hf.
  induction Hne as [|s l Hs Hl IH]; [done|].
  rewrite fmap_cons, filter_cons_True by by rewrite flat_nil.
  by rewrite IH.
Qed.

(** X1. With a positive chunk size and a concurrency cap above one, the
    dispatcher returns, its chunks are contiguous slices of at most
    [C] lines that add up to the batch, and it issues [ceil(N/C)]
    bulk writes. *)
Theorem bulkIndexByChunks_concurrent (C M : Z) (body : list Line)
    (indexConfig : IndexProcessConfig) (sch : list (list nat)) :
  0 < C → 1 < M → dataFormatterFn indexConfig = None →
  ∃ st, bulkIndexByChunks C M body (length body) sch = Some st
        ∧ concat (started st) = body
        ∧ Forall (λ s, (length s ≤ Z.to_nat C)%nat) (started st)
        ∧ Z.of_nat (length (dispatched_bulk_calls indexConfig st))
          = (Z.of_nat (length body) + C - 1) / C.
Proof.
  intros HC HM Hf. unfold bulkIndexByChunks.
  destruct (Z.gtb_spec C (Z.of_nat (length body))) as [Hlt|Hge].
  - simpl. eexists; split; [done|].
    unfold dispatched_bulk_calls, bulk_body.
    rewrite Hf, !started_await_promise. simpl.
    split; [by rewrite app_nil_r|]. split; [repeat constructor; lia|].
    destruct body as [|l body'] eqn:Hb.
    + simpl. symmetry. apply Z.div_small. lia.
    + rewrite filter_cons_True by by rewrite flat_nil.
      simpl length in *.
      replace (Z.of_nat (S (length body')) + C - 1)
        with (Z.of_nat (length body') + 1 * C) by lia.
      rewrite Z.div_add, Z.div_small by lia. lia.
  - destruct (chunk_loop_total C M body HC (length body) 0 (dispatch0 sch))
      as [st1 Hst1]; [lia|].
    rewrite Hst1. simpl.
    pose proof (chunk_loop_started C M body _ _ _ _ Hst1) as Hs. simpl in Hs.
    unfold copies in Hs. destruct (Z.gtb_spec M 1); [|lia].
    rewrite bind_singleton in Hs.
    eexists; split; [done|].
    assert (started (if bool_decide (0 < length (promises st1))%nat
                     then await_all st1 else st1)
            = slices C body (length body) 0) as Hst.
    { rewrite <- Hs. case_bool_decide; [apply started_await_all|done]. }
    pose proof (slices_bounded C body HC (length body) 0 (Z.le_refl 0)) as Hb.
    split; [|split].
    + rewrite Hst, slices_concat by lia. done.
    + rewrite Hst. eapply Forall_impl; [exact Hb|]. simpl. lia.
    + rewrite dispatched_all, length_fmap, Hst; [| done |].
      * rewrite slices_length by lia. f_equal. lia.
      * rewrite Hst. eapply Forall_impl; [exact Hb|]. simpl.
        intros s [Hs0 _] ->. simpl in Hs0. lia.
Qed.

(** With a cap of one or less, every chunk of a batch that is not
    smaller than the chunk size is handed to [request] twice. *)
Theorem bulkIndexByChunks_sequential (C M : Z) (body : list Line)
    (indexConfig : IndexProcessConfig) (sch : list (list nat)) :
  0 < C → M ≤ 1 → C ≤ Z.of_nat (length body) →
  dataFormatterFn indexConfig = None →
  ∃ st, bulkIndexByChunks C M body (length body) sch = Some st
        ∧ started st = slices C body (length body) 0 ≫= (λ s, [s; s])
        ∧ Z.of_nat (length (dispatched_bulk_calls indexConfig st))
          = 2 * ((Z.of_nat (length body) + C - 1) / C).
Proof.
  intros HC HM Hge Hf. unfold bulkIndexByChunks.
  destruct (Z.gtb_spec C (Z.of_nat (length body))); [lia|].
  destruct (chunk_loop_total C M body HC (length body) 0 (dispatch0 sch))
    as [st1 Hst1]; [lia|].
  rewrite Hst1. simpl.
  pose proof (chunk_loop_started C M body _ _ _ _ Hst1) as Hs. simpl in Hs.
  unfold copies in Hs. destruct (Z.gtb_spec M 1); [lia|].
  eexists; split; [done|].
  assert (started (if bool_decide (0 < length (promises st1))%nat
                   then await_all st1 else st1)
          = slices C body (length body) 0 ≫= (λ s, [s; s])) as Hst.
  { rewrite <- Hs. case_bool_decide; [apply started_await_all|done]. }
  split; [done|].
  pose proof (slices_bounded C body HC (length body) 0 (Z.le_refl 0)) as Hb.
  rewrite dispatched_all, length_fmap, Hst; [| done |].
  - rewrite bind_twice_length, Nat2Z.inj_mul, slices_length by lia.
    do 2 f_equal. lia.
  - rewrite Hst. apply Forall_bind. eapply Forall_impl; [exact Hb|]. simpl.
    intros s [Hs0 _].
    repeat constructor; intros ->; simpl in Hs0; lia.
Qed.

(** ** The window of the dispatcher does not bound the outstanding calls *)

Lemma outstanding_app (a b : list DispatchEvent) :
  outstanding (a ++ b) = outstanding a + outstanding b.
Proof.
  induction a as [|[id c|id] a IH]; simpl; [done|rewrite IH; lia..].
Qed.






(** ** The executor *)

Lemma for_each_app {A} (f : A → Exec unit) (l1 l2 : list A) (h : list Event) :
  for_each f (l1 ++ l2) h
  = match for_each f l1 h with
    | (h', inr _) => for_each f l2 h'
    | (h', inl e) => (h', inl e)
    end.
Proof.
  revert h. induction l1 as [|x l1 IH]; intros h; [done|].
  simpl. unfold bind. destruct (f x h) as [h' [e|[]]]; [done|]. apply IH.
Qed.

Lemma for_each_total {A} (f : A → Exec unit) (l : list A) :
  Forall (returns_normally f) l → ∀ h, ∃ evs, for_each f l h = (h ++ evs, inr tt).
Proof.
  induction 1 as [|x l Hx _ IH]; intros h.
  - exists []. by rewrite app_nil_r.
  - destruct (Hx h) as [e1 H1]. destruct (IH (h ++ e1)) as [e2 H2].
    exists (e1 ++ e2). simpl. unfold bind. by rewrite H1, H2, app_assoc.
Qed.

Lemma for_each_lookup {A} (f : A → Exec unit) (l : list A) (i : nat) (x : A) :
  Forall (returns_normally f) l → l !! i = Some x →
  ∀ h, ∃ pre evx post,
    for_each f (take i l) h = (h ++ pre, inr tt)
    ∧ f x (h ++ pre) = (h ++ pre ++ evx, inr tt)
    ∧ for_each f (drop (S i) l) (h ++ pre ++ evx)
      = (h ++ pre ++ evx ++ post, inr tt)
    ∧ for_each f l h = (h ++ pre ++ evx ++ post, inr tt).
Proof.
  intros Ht Hi h.
  pose proof (take_drop_middle l i x Hi) as Hl.
  assert (Forall (returns_normally f) (take i l)) as Ht1 by (apply Forall_take; exact Ht).
  assert (Forall (returns_normally f) (drop (S i) l)) as Ht2
    by (apply Forall_drop; exact Ht).
  assert (returns_normally f x) as Hx by exact (Forall_lookup_1 _ _ _ _ Ht Hi).
  destruct (for_each_total f _ Ht1 h) as [pre Hpre].
  destruct (Hx (h ++ pre)) as [evx Hevx].
  destruct (for_each_total f _ Ht2 ((h ++ pre) ++ evx)) as [post Hpost].
  exists pre, evx, post.
  rewrite <- !app_assoc in Hpost. rewrite <- !app_assoc in Hevx.
  split; [done|]. split; [done|]. split; [done|].
  rewrite <- Hl at 1. rewrite for_each_app, Hpre. simpl. unfold bind.
  by rewrite Hevx, Hpost.
Qed.

Section ExecutorFacts.

Variable client_bulk :
  list Event → list BulkOperationContainer → Exn + option BulkResponse.
Variable client_index :
  list Event → string → option string → option BulkOperationContainer →
  option Exn.

Lemma handle_operation_skip indexName body k action op h :
  op = "" ∨ item_get action op ≫= error = None →
  handle_operation client_index indexName body k action op h = (h, inr tt).
Proof.
  intros H. unfold handle_operation.
  destruct H as [->|H]; [done|]. rewrite H.
  rewrite andb_false_intro2; [done|].
  apply bool_decide_eq_false. by intros [? ?].
Qed.

Lemma handle_operation_error indexName body k action op it id h :
  op ≠ "" → item_get action op = Some it → is_Some (error it) →
  body_id body k = inr id →
  handle_operation client_index indexName body k action op h
  = (h ++ (if bool_decide (status it = Some 429)
           then retry_events client_index indexName body k id h else [])
       ++ [EvLog (ErrorBulkIndex (bulk_error_of body k it))], inr tt).
Proof.
  intros Hop Hit He Hid. unfold handle_operation. rewrite Hit. simpl.
  rewrite bool_decide_eq_true_2 by done.
  rewrite bool_decide_eq_true_2 by done. simpl.
  unfold mbind, exec_bind, bind, retry_events, bulk_error_of.
  case_bool_decide; simpl.
  - rewrite Hid. simpl. unfold call_index, try_catch, emit. simpl.
    destruct (client_index _ _ _ _); simpl; by rewrite <- !app_assoc.
  - done.
Qed.

Lemma handle_operation_total indexName body k action :
  (k * 2 < length body)%nat →
  ∀ op, returns_normally (handle_operation client_index indexName body k action) op.
Proof.
  intros Hk op h.
  destruct (lookup_lt_is_Some_2 body (k * 2)%nat Hk) as [c Hc].
  assert (∃ id, body_id body k = inr id) as [id Hid].
  { unfold body_id. rewrite Hc. destruct c; eauto. }
  destruct (decide (op = "")) as [->|Hop].
  { exists []. rewrite app_nil_r. apply handle_operation_skip. by left. }
  destruct (item_get action op) as [it|] eqn:Hit.
  - destruct (error it) as [e|] eqn:He.
    + eexists. eapply handle_operation_error; eauto.
    + exists []. rewrite app_nil_r. apply handle_operation_skip.
      right. by rewrite Hit.
  - exists []. rewrite app_nil_r. apply handle_operation_skip.
    right. by rewrite Hit.
Qed.

Lemma handle_item_total indexName body (ka : nat * BulkResponseItemContainer) :
  (ka.1 * 2 < length body)%nat →
  returns_normally (λ ka, handle_item client_index indexName body ka.1 ka.2) ka.
Proof.
  intros Hk h. unfold handle_item. apply for_each_total.
  apply Forall_forall. intros op _. by apply handle_operation_total.
Qed.

Lemma items_total indexName body (its : list BulkResponseItemContainer) :
  (length its * 2 ≤ length body)%nat →
  Forall (returns_normally (λ ka, handle_item client_index indexName body ka.1 ka.2))
    (imap pair its).
Proof.
  intros Hlen. apply Forall_lookup. intros i [k action] Hi.
  apply list_lookup_imap_Some in Hi as (a & Ha & [= -> ->]).
  apply handle_item_total. simpl.
  apply lookup_lt_Some in Ha. lia.
Qed.

(** C6. In a bulk response that reports errors, an item [k] whose
    outcome carries an error with status 429 is retried by exactly one
    single-document write, addressed to the id of the header at
    position [2k] of the flattened body and carrying the element at
    position [2k+1]. The retry takes place before the loop moves on;
    whether it succeeds or is rejected, the loop goes on and returns
    normally, and a rejected retry is only logged. [pre] and [post]
    are the events of the items before and after [k]. *)
Theorem retry_once_on_429 indexName r body k op it e m h :
  errors r = true →
  (length (items r) * 2 ≤ length body)%nat →
  items r !! k = Some [(op, it)] →
  op ≠ "" → status it = Some 429 → error it = Some e →
  body !! (k * 2)%nat = Some (OpIndex m) →
  ∃ pre post,
    let each := λ ka : nat * BulkResponseItemContainer,
                  handle_item client_index indexName body ka.1 ka.2 in
    let doc := body !! (k * 2 + 1)%nat in
    let warn := EvLog (WarnRetrying (_id m) indexName) in
    let seg :=
      [warn; EvCall (CallIndex indexName (_id m) doc)]
      ++ match client_index (h ++ pre ++ [warn]) indexName (_id m) doc with
         | Some err => [EvLog (ErrorRetrying (_id m) indexName err)]
         | None => []
         end
      ++ [EvLog (ErrorBulkIndex (mkBulkError 429 (Some e) doc))] in
    for_each each (take k (imap pair (items r))) h = (h ++ pre, inr tt)
    ∧ handle_item client_index indexName body k [(op, it)] (h ++ pre)
      = (h ++ pre ++ seg, inr tt)
    ∧ for_each each (drop (S k) (imap pair (items r))) (h ++ pre ++ seg)
      = (h ++ pre ++ seg ++ post, inr tt)
    ∧ logBulkErrorsAndRetry client_index indexName r body h
      = (h ++ pre ++ seg ++ post, inr tt)
    ∧ index_calls seg = [(indexName, _id m, doc)].
Proof.
  intros Herr Hlen Hk Hop Hst He Hm.
  pose proof (items_total indexName body (items r) Hlen) as Ht.
  assert (imap pair (items r) !! k = Some (k, [(op, it)])) as Hik
    by (by rewrite list_lookup_imap, Hk).
  destruct (for_each_lookup _ _ _ _ Ht Hik h)
    as (pre & evx & post & Hpre & Hx & Hpost & Hall).
  simpl in Hx.
  assert (handle_item client_index indexName body k [(op, it)] (h ++ pre)
          = (h ++ pre
               ++ (retry_events client_index indexName body k (_id m) (h ++ pre)
                     ++ [EvLog (ErrorBulkIndex (bulk_error_of body k it))]),
             inr tt)) as Hseg.
  { unfold handle_item. simpl. unfold bind.
    rewrite (handle_operation_error indexName body k [(op, it)] op it (_id m));
      [| done | simpl; by rewrite decide_True | by rewrite He
       | unfold body_id; by rewrite Hm].
    rewrite bool_decide_eq_true_2 by done.
    unfold ret. rewrite <- (app_assoc h pre). reflexivity. }
  assert (evx = retry_events client_index indexName body k (_id m) (h ++ pre)
                ++ [EvLog (ErrorBulkIndex (bulk_error_of body k it))])
    as ->.
  { rewrite Hx in Hseg. injection Hseg as Hseg.
    rewrite !app_assoc in Hseg. by apply app_inv_head in Hseg. }
  exists pre, post.
  unfold retry_events, bulk_error_of in *. rewrite Hst, He in *. simpl in *.
  rewrite <- !app_assoc in *. simpl in *.
  repeat split; try done.
  - unfold logBulkErrorsAndRetry. by rewrite Herr.
  - by destruct (client_index _ _ _ _).
Qed.

(** C9. In a bulk response that reports errors, every outcome of an
    item that carries an error is logged as a bulk-index error with its
    status, its error payload and the element at position [2k+1] of
    the flattened body; an outcome with status 429 is retried and
    logged through that same path. *)
Theorem bulk_errors_always_logged indexName r body k action op it e h :
  errors r = true →
  (length (items r) * 2 ≤ length body)%nat →
  items r !! k = Some action →
  op ∈ action.*1 → op ≠ "" →
  item_get action op = Some it → error it = Some e →
  ∃ evs,
    logBulkErrorsAndRetry client_index indexName r body h = (h ++ evs, inr tt)
    ∧ EvLog (ErrorBulkIndex
               (mkBulkError (default 0 (status it)) (Some e)
                  (body !! (k * 2 + 1)%nat))) ∈ evs
    ∧ (status it = Some 429 →
       ∃ id, body_id body k = inr id
             ∧ EvCall (CallIndex indexName id (body !! (k * 2 + 1)%nat))
               ∈ evs).
Proof.
  intros Herr Hlen Hk Hin Hop Hit He.
  pose proof (items_total indexName body (items r) Hlen) as Ht.
  assert (imap pair (items r) !! k = Some (k, action)) as Hik
    by (by rewrite list_lookup_imap, Hk).
  destruct (for_each_lookup _ _ _ _ Ht Hik h)
    as (pre & evx & post & _ & Hx & _ & Hall).
  simpl in Hx. unfold handle_item in Hx.
  assert (k * 2 < length body)%nat as Hk2
    by (apply lookup_lt_Some in Hk; lia).
  apply list_elem_of_lookup in Hin as [j Hj].
  assert (Forall (returns_normally (handle_operation client_index indexName body k action))
            action.*1) as Hto
    by (apply Forall_forall; intros ? _; by apply handle_operation_total).
  destruct (for_each_lookup _ _ _ _ Hto Hj (h ++ pre))
    as (pre' & evo & post' & _ & Ho & _ & Hall').
  rewrite Hall' in Hx. injection Hx as Hx.
  rewrite <- !app_assoc in Hx. do 2 apply app_inv_head in Hx. subst evx.
  destruct (lookup_lt_is_Some_2 body (k * 2)%nat Hk2) as [c Hc].
  assert (∃ id, body_id body k = inr id) as [id Hid].
  { unfold body_id. rewrite Hc. destruct c; eauto. }
  rewrite (handle_operation_error indexName body k action op it id) in Ho;
    [| done | done | by rewrite He | done].
  injection Ho as Ho. rewrite <- !app_assoc in Ho.
  do 3 apply app_inv_head in Ho. subst evo.
  exists (pre ++ (pre' ++ ((if bool_decide (status it = Some 429)
                            then retry_events client_index indexName body k id
                                   ((h ++ pre) ++ pre')
                            else [])
                           ++ [EvLog (ErrorBulkIndex (bulk_error_of body k it))])
                    ++ post') ++ post).
  split; [|split].
  - unfold logBulkErrorsAndRetry. rewrite Herr, Hall.
    by rewrite <- !app_assoc.
  - unfold bulk_error_of. rewrite He.
    rewrite !elem_of_app. right. left. right. left. right.
    apply list_elem_of_singleton. done.
  - intros H429. exists id. split; [done|].
    rewrite bool_decide_eq_true_2 by done. unfold retry_events.
    rewrite !elem_of_app. right. left. right. left. left. left.
    apply elem_of_cons. right. apply elem_of_cons. by left.
Qed.

Lemma requestBulkIndex_returns indexName body h :
  (requestBulkIndex client_bulk client_index indexName body h).2 = inr tt.
Proof.
  unfold requestBulkIndex. case_bool_decide; [done|].
  unfold try_catch.
  destruct (_ ≫= _) as [h' [err|[]]]; done.
Qed.

(** C7. When the bulk write is rejected as a whole, the executor logs
    the failure and returns normally: the history holds the one bulk
    call and the error message, no second call is made and nothing is
    thrown. For an empty body the executor returns at once and issues
    no call. *)
Theorem transport_failure_swallowed indexName body h :
  (∀ e, body ≠ [] → client_bulk h body = inl e →
        requestBulkIndex client_bulk client_index indexName body h
        = (h ++ [EvCall (CallBulk body); EvLog (ErrorFatal indexName e)],
           inr tt))
  ∧ requestBulkIndex client_bulk client_index indexName [] h = (h, inr tt).
Proof.
  split; [|done].
  intros e Hb He. unfold requestBulkIndex.
  rewrite bool_decide_eq_false_2 by done.
  unfold try_catch, mbind, exec_bind, bind, call_bulk, emit.
  rewrite He. by rewrite <- app_assoc.
Qed.

End ExecutorFacts.

(** ** The bulk writes of a request *)

Lemma bulk_calls_app (h1 h2 : list Event) :
  bulk_calls (h1 ++ h2) = bulk_calls h1 ++ bulk_calls h2.
Proof. apply omap_app. Qed.

Lemma quiet_ret {A} (a : A) : quiet (ret a).
Proof. intros h. exists []. by rewrite app_nil_r. Qed.

Lemma quiet_throw {A} (e : Exn) : quiet (throw (A := A) e).
Proof. intros h. exists []. by rewrite app_nil_r. Qed.

Lemma quiet_log (l : Log) : quiet (emit (EvLog l)).
Proof. intros h. by exists [EvLog l]. Qed.

Lemma quiet_bind {A B} (m : Exec A) (k : A → Exec B) :
  quiet m → (∀ a, quiet (k a)) → quiet (bind m k).
Proof.
  intros Hm Hk h. unfold bind.
  destruct (Hm h) as (e1 & H1 & Q1).
  destruct (m h) as [h' [e|a]]; simpl in H1; subst h'.
  - by exists e1.
  - destruct (Hk a (h ++ e1)) as (e2 & H2 & Q2).
    exists (e1 ++ e2). rewrite H2, app_assoc, bulk_calls_app, Q1, Q2. done.
Qed.

Lemma quiet_try_catch {A} (m : Exec A) (handler : Exn → Exec A) :
  quiet m → (∀ e, quiet (handler e)) → quiet (try_catch m handler).
Proof.
  intros Hm Hk h. unfold try_catch.
  destruct (Hm h) as (e1 & H1 & Q1).
  destruct (m h) as [h' [e|a]]; simpl in H1; subst h'.
  - destruct (Hk e (h ++ e1)) as (e2 & H2 & Q2).
    exists (e1 ++ e2). rewrite H2, app_assoc, bulk_calls_app, Q1, Q2. done.
  - by exists e1.
Qed.

Lemma quiet_for_each {A} (f : A → Exec unit) (l : list A) :
  (∀ x, quiet (f x)) → quiet (for_each f l).
Proof.
  intros Hf. induction l as [|x l IH]; simpl.
  - apply quiet_ret.
  - apply quiet_bind; [apply Hf|]. by intros _.
Qed.

Section BulkCalls.

Variable client_bulk :
  list Event → list BulkOperationContainer → Exn + option BulkResponse.
Variable client_index :
  list Event → string → option string → option BulkOperationContainer →
  option Exn.

Lemma quiet_call_index index id doc : quiet (call_index client_index index id doc).
Proof. intros h. by exists [EvCall (CallIndex index id doc)]. Qed.

Lemma quiet_handle_operation indexName body k action op :
  quiet (handle_operation client_index indexName body k action op).
Proof.
  unfold handle_operation. destruct (_ && _); [|apply quiet_ret].
  apply quiet_bind; [|intros _; apply quiet_log].
  case_bool_decide; [|apply quiet_ret].
  apply quiet_bind.
  - unfold lift. destruct (body_id body k); [apply quiet_throw|apply quiet_ret].
  - intros id. apply quiet_bind; [apply quiet_log|]. intros _.
    apply quiet_try_catch; [apply quiet_call_index|].
    intros e. apply quiet_log.
Qed.

Lemma quiet_logBulkErrorsAndRetry indexName r body :
  quiet (logBulkErrorsAndRetry client_index indexName r body).
Proof.
  unfold logBulkErrorsAndRetry. destruct (errors r); [|apply quiet_ret].
  apply quiet_for_each. intros [k action]. unfold handle_item.
  apply quiet_for_each. intros op. apply quiet_handle_operation.
Qed.

(** The executor issues exactly one bulk write for a body that is not
    empty, and none for an empty one, whatever the cluster answers. *)
Lemma requestBulkIndex_bulk_calls indexName body h :
  bulk_calls (requestBulkIndex client_bulk client_index indexName body h).1
  = bulk_calls h ++ (if bool_decide (body = []) then [] else [body]).
Proof.
  unfold requestBulkIndex. case_bool_decide; [by rewrite app_nil_r|].
  unfold try_catch, mbind, exec_bind, bind, call_bulk.
  destruct (client_bulk h body) as [e|[r|]]; simpl.
  - unfold emit. simpl. rewrite <- app_assoc, bulk_calls_app. done.
  - destruct (quiet_logBulkErrorsAndRetry indexName r body
                (h ++ [EvCall (CallBulk body)])) as (evs & Hev & Hq).
    destruct (logBulkErrorsAndRetry _ _ _ _ _) as [h' [e|[]]];
      simpl in Hev; subst h'; unfold emit; simpl;
      rewrite <- ?app_assoc, !bulk_calls_app, ?Hq; simpl;
      by rewrite ?bulk_calls_app, ?Hq.
  - by rewrite bulk_calls_app.
Qed.

(** X7. A [request] issues one bulk write, carrying the flattened chunk (as
    formatted, when there is a formatter), when that body is not empty,
    and none otherwise, whatever the cluster answers: nothing in the
    handling of the response issues another bulk write. *)
Lemma request_bulk_calls indexName indexConfig bodyChunk h :
  bulk_calls (request client_bulk client_index indexName indexConfig
                bodyChunk h).1
  = bulk_calls h
    ++ (if bool_decide (bulk_body indexConfig bodyChunk = []) then []
        else [bulk_body indexConfig bodyChunk]).
Proof.
  unfold request, mbind, exec_bind, bind.
  case_bool_decide; simpl.
  - rewrite requestBulkIndex_bulk_calls, bulk_calls_app. simpl.
    by rewrite app_nil_r.
  - apply requestBulkIndex_bulk_calls.
Qed.

(** X6. Without a formatter hook, a [request] never throws: whatever the
    cluster answers to the bulk write and to the retries, and whatever
    the chunk holds, it returns normally. *)
Lemma request_returns indexName indexConfig bodyChunk h :
  dataFormatterFn indexConfig = None →
  (request client_bulk client_index indexName indexConfig bodyChunk h).2
  = inr tt.
Proof.
  intros Hf. unfold request, bulk_body, mbind, exec_bind, bind. rewrite Hf.
  case_bool_decide; simpl; apply requestBulkIndex_returns.
Qed.

End BulkCalls.

(** ** The generation manager *)

(** What [pop] leaves of a sorted array without repetition: the elements
    that have a different element after them. *)
Lemma removelast_sorted (l : list string) :
  StronglySorted String.le l → NoDup l →
  ∀ z, z ∈ removelast l ↔ z ∈ l ∧ ∃ u, u ∈ l ∧ u ≠ z ∧ String.le z u.
Proof.
  induction l as [|x [|y l'] IH]; intros Hs Hn z.
  - simpl. split; [by intros ?%elem_of_nil|by intros [?%elem_of_nil _]].
  - simpl. split; [by intros ?%elem_of_nil|].
    intros [->%list_elem_of_singleton (u & ->%list_elem_of_singleton & ? & _)].
    done.
  - apply StronglySorted_inv in Hs as [Hs' Hx].
    apply NoDup_cons in Hn as [Hnx Hn'].
    change (removelast (x :: y :: l')) with (x :: removelast (y :: l')).
    rewrite elem_of_cons, (IH Hs' Hn' z). split.
    + intros [->|[Hz (u & Hu & Hne & Hle)]].
      * split; [by left|]. exists y. split; [by right; left|].
        split; [|by eapply Forall_forall; [exact Hx|left]].
        intros ->. apply Hnx. by left.
      * split; [by right|]. exists u. split; [by right|done].
    + intros [Hz (u & Hu & Hne & Hle)].
      apply elem_of_cons in Hz as [->|Hz]; [by left|]. right.
      split; [done|]. exists u. split; [|done].
      apply elem_of_cons in Hu as [->|Hu]; [|done].
      exfalso. apply Hne.
      apply (anti_symm String.le); [|done].
      by eapply Forall_forall; [exact Hx|].
Qed.

Lemma removelast_sorted_max (l : list string) :
  StronglySorted String.le l → NoDup l →
  ∀ z, z ∈ l → (z ∉ removelast l ↔ ∀ u, u ∈ l → String.le u z).
Proof.
  intros Hs Hn z Hz. rewrite removelast_sorted by done. split.
  - intros Hno u Hu.
    destruct (decide (String.le u z)) as [|Hnle]; [done|].
    exfalso. apply Hno. split; [done|]. exists u. split; [done|].
    split; [by intros ->; apply Hnle|].
    by destruct (total String.le z u).
  - intros Hmax [_ (u & Hu & Hne & Hle)]. apply Hne.
    apply (anti_symm String.le); [by apply Hmax|done].
Qed.

Section GenerationFacts.

Variables (SEP version : string) (env : Env).

Lemma foldr_delete_lookup (m : gmap string IndexState) (js : list string)
    (j : string) :
  foldr delete m js !! j = if decide (j ∈ js) then None else m !! j.
Proof.
  case_decide.
  - by apply lookup_foldr_delete.
  - by apply lookup_foldr_delete_not_elem_of.
Qed.

Lemma older_spec w al G2 g :
  g ∈ older SEP version w al G2
  ↔ is_Some (indices w !! g)
    ∧ String.prefix (release_prefix SEP version al) g = true ∧ g ≠ G2.
Proof.
  unfold older. rewrite merge_sort_Permutation.
  rewrite list_elem_of_filter, elem_of_elements, elem_of_filter, elem_of_dom.
  tauto.
Qed.

Lemma older_sorted w al G2 :
  StronglySorted String.le (older SEP version w al G2) ∧ NoDup (older SEP version w al G2).
Proof.
  split; [apply StronglySorted_merge_sort; apply _|].
  unfold older. rewrite merge_sort_Permutation.
  apply NoDup_filter, NoDup_elements.
Qed.

Lemma swap_bound (b : gmap string (gset string)) (al G2 : string) :
  let B := default ∅ (b !! al) in
  default ∅
    (foldl Client.apply_action b
       ((if bool_decide (elements B ≠ [])
         then [ActRemove (elements B) al] else [])
        ++ [ActAdd G2 al]) !! al)
  = {[G2]}.
Proof.
  intros B. case_bool_decide as Hb; simpl.
  - rewrite !lookup_insert_eq. simpl.
    rewrite list_to_set_elements_L. apply set_eq. intros x.
    rewrite elem_of_union, elem_of_difference. tauto.
  - rewrite lookup_insert_eq. simpl. fold B.
    assert (B = ∅) as ->; [|by rewrite (left_id_L ∅ (∪))].
    apply leibniz_equiv, elements_empty_inv.
    by destruct (decide (elements B = [])).
Qed.

Lemma finalize_run al G2 w :
  is_Some (indices w !! G2) → alias_sound w al →
  ∃ w', finalizeNewIndexRelease SEP version env al G2 w = inr (tt, w')
        ∧ Client.bound w' al = {[G2]}
        ∧ ∀ g, indices w' !! g
               = if decide (g ∈ removelast (older SEP version w al G2)) then None
                 else if decide (g = G2)
                      then settle_settings env <$> indices w !! g
                      else indices w !! g.
Proof.
  intros [ix Hix] Hsound.
  unfold finalizeNewIndexRelease, mbind, admin_bind.
  unfold Client.cat_aliases, Client.info, Client.indices_putSettings.
  cbn [indices bindings logged]. rewrite Hix. cbn [indices bindings logged].
  set (B := Client.bound w al) in *.
  fold (settle_settings env ix).
  set (ixs := <[G2 := settle_settings env ix]> (indices w)).
  assert (∀ g, ixs !! g = if decide (g = G2)
                          then settle_settings env <$> indices w !! g
                          else indices w !! g) as Hixs.
  { intros g. unfold ixs. case_decide as Hg.
    - subst g. by rewrite lookup_insert_eq, Hix.
    - by rewrite lookup_insert_ne. }
  assert (∀ g, is_Some (ixs !! g) ↔ is_Some (indices w !! g)) as Hdom.
  { intros g. rewrite Hixs. case_decide; [|done].
    by rewrite fmap_is_Some. }
  assert (dom ixs = dom (indices w)) as Hdomeq.
  { apply set_eq. intros g. by rewrite !elem_of_dom. }
  unfold Client.indices_updateAliases. cbn [indices bindings logged].
  rewrite bool_decide_eq_true_2; cycle 1.
  { apply Forall_forall. intros g Hg. apply Hdom.
    apply list_elem_of_bind in Hg as (a & Hg & Ha).
    apply elem_of_app in Ha as [Ha|Ha%list_elem_of_singleton].
    - case_bool_decide; [|by apply elem_of_nil in Ha].
      apply list_elem_of_singleton in Ha. subst a. simpl in Hg.
      apply Hsound. by apply elem_of_elements.
    - subst a. simpl in Hg. apply list_elem_of_singleton in Hg.
      subst. eauto. }
  pose proof (swap_bound (bindings w) al G2) as Hswap.
  cbn zeta in Hswap. fold (Client.bound w al) in Hswap. fold B in Hswap.
  set (b3 := foldl Client.apply_action _ _) in *.
  set (old := removelast (older SEP version w al G2)).
  assert (∀ lg, (if bool_decide (elements B ≠ [])
                 then Client.info (InfoRemovedPointers (elements B))
                 else (mret tt : Admin unit)) (mkWorld ixs b3 lg)
                = inr (tt, mkWorld ixs b3
                             (if bool_decide (elements B ≠ [])
                              then lg ++ [InfoRemovedPointers (elements B)]
                              else lg))) as Hlog.
  { intros lg. by case_bool_decide. }
  rewrite Hlog. cbn beta iota.
  unfold Client.cat_indices. cbn [indices bindings logged].
  rewrite Hdomeq. fold (older SEP version w al G2). fold old.
  assert (∀ g, g ∈ old → g ≠ G2 ∧ is_Some (ixs !! g)) as Hold.
  { intros g Hg. unfold old in Hg.
    destruct (older_sorted w al G2) as [Hs Hn].
    apply removelast_sorted in Hg as [Hg _]; [|done..].
    apply older_spec in Hg as (? & _ & ?). by rewrite Hdom. }
  clear Hlog. destruct (decide (old = [])) as [Ho|Ho].
  2: { rewrite (bool_decide_eq_true_2 (old ≠ [])) by done.
    unfold Client.indices_delete. cbn [indices bindings logged].
    rewrite bool_decide_eq_true_2
      by (apply Forall_forall; intros g Hg; by apply Hold).
    eexists. split; [reflexivity|]. split.
    + unfold Client.bound. cbn [bindings]. rewrite lookup_fmap.
      unfold Client.bound in Hswap.
      destruct (b3 !! al) as [S|]; simpl in *; subst.
      * apply set_eq. intros g. rewrite elem_of_difference.
        rewrite elem_of_list_to_set. split; [tauto|].
        intros HG. split; [done|]. intros Hg%Hold.
        apply elem_of_singleton in HG. tauto.
      * exfalso. eapply (not_elem_of_empty (C := gset string)).
        erewrite Hswap. by apply elem_of_singleton.
    + intros g. cbn [indices]. rewrite foldr_delete_lookup.
      case_decide; [done|]. apply Hixs. }
  rewrite (bool_decide_eq_false_2 (old ≠ [])) by (by intros ?).
  eexists. split; [reflexivity|]. split; [exact Hswap|].
  intros g. cbn [indices]. rewrite Ho.
  rewrite decide_False by apply not_elem_of_nil. apply Hixs.
Qed.

Lemma finalize_inv al G2 w w' :
  finalizeNewIndexRelease SEP version env al G2 w = inr (tt, w') →
  is_Some (indices w !! G2) ∧ alias_sound w al.
Proof.
  unfold finalizeNewIndexRelease, mbind, admin_bind.
  unfold Client.cat_aliases, Client.info, Client.indices_putSettings.
  cbn [indices bindings logged].
  destruct (indices w !! G2) as [ix|] eqn:Hix; [|done].
  cbn [indices bindings logged].
  unfold Client.indices_updateAliases. cbn [indices bindings logged].
  case_bool_decide as HF; [|done]. intros _. split; [eauto|].
  intros g Hg.
  assert (is_Some (<[G2 := settle_settings env ix]> (indices w) !! g)) as Hs.
  { rewrite Forall_forall in HF. apply HF.
    apply list_elem_of_bind. exists (ActRemove (elements (Client.bound w al)) al).
    split; [simpl; by apply elem_of_elements|].
    apply elem_of_app. left.
    rewrite bool_decide_eq_true_2; [by left|].
    intros Hnil. apply elem_of_elements in Hg. rewrite Hnil in Hg.
    by apply elem_of_nil in Hg. }
  destruct (decide (g = G2)) as [->|]; [eauto|].
  by rewrite lookup_insert_ne in Hs.
Qed.

(** C3, amended. After [finalizeNewIndexRelease] has returned normally
    for the new generation [G2]: the alias resolves to [G2] alone; an
    index is still on the cluster exactly when it was there before and
    it is [G2], or its name does not match the pattern of the running
    version, or it is the last in name order of the matching
    generations other than [G2]. So the generation [G1] the alias was
    bound to is kept when it is that last one, and at most one matching
    generation other than [G2] remains. *)
Theorem finalize_keeps_last_sorted al G2 w w' :
  finalizeNewIndexRelease SEP version env al G2 w = inr (tt, w') →
  let matching := λ g, String.prefix (release_prefix SEP version al) g = true in
  let last_older := λ g,
    ∀ u, is_Some (indices w !! u) → matching u → u ≠ G2 → String.le u g in
  Client.bound w' al = {[G2]}
  ∧ (∀ g, is_Some (indices w' !! g)
          ↔ is_Some (indices w !! g)
            ∧ (g = G2 ∨ ¬ matching g ∨ last_older g))
  ∧ (∀ G1, G1 ∈ Client.bound w al → G1 ≠ G2 → matching G1 →
           last_older G1 → is_Some (indices w' !! G1))
  ∧ (∀ g1 g2, is_Some (indices w' !! g1) → is_Some (indices w' !! g2) →
              matching g1 → matching g2 → g1 ≠ G2 → g2 ≠ G2 → g1 = g2).
Proof.
  intros Hrun matching last_older.
  destruct (finalize_inv _ _ _ _ Hrun) as [HG2 Hsound].
  destruct (finalize_run al G2 w HG2 Hsound) as (w'' & Hrun' & Hb & Hix).
  rewrite Hrun in Hrun'. injection Hrun' as <-.
  destruct (older_sorted w al G2) as [Hs Hn].
  assert (∀ g, is_Some (indices w' !! g)
               ↔ is_Some (indices w !! g)
                 ∧ (g = G2 ∨ ¬ matching g ∨ last_older g)) as Hiff.
  { intros g. rewrite Hix.
    destruct (decide (g = G2)) as [->|Hg].
    { rewrite decide_False; [rewrite fmap_is_Some; tauto|].
      intros [HG _]%removelast_sorted; [|done..].
      apply older_spec in HG. tauto. }
    destruct (decide (g ∈ older SEP version w al G2)) as [Ho|Ho].
    - pose proof (removelast_sorted_max _ Hs Hn g Ho) as Hmax.
      apply older_spec in Ho as (Hex & Hm & _).
      case_decide as Hd.
      + split; [by intros [? ?]|]. intros [_ [?|[?|Hl]]]; [done..|].
        exfalso. revert Hd. apply Hmax. intros u Hu.
        apply older_spec in Hu as (? & ? & ?). by apply Hl.
      + split; [|tauto]. intros _. split; [done|]. right. right.
        intros u ? ? ?. apply Hmax; [done|]. apply older_spec. tauto.
    - rewrite decide_False
        by (intros [? _]%removelast_sorted; done).
      split; [|tauto]. intros Hex. split; [done|]. right. left.
      intros Hm. apply Ho. apply older_spec. tauto. }
  split; [done|]. split; [done|]. split.
  - intros G1 HG1 Hne Hm Hl. apply Hiff. split; [by apply Hsound|].
    right. by right.
  - intros g1 g2 [H1 C1]%Hiff [H2 C2]%Hiff Hm1 Hm2 Hn1 Hn2.
    destruct C1 as [?|[?|L1]]; [done..|].
    destruct C2 as [?|[?|L2]]; [done..|].
    apply (anti_symm String.le); [by apply L2|by apply L1].
Qed.

End GenerationFacts.


(** ** The dispatcher and its configuration on concrete inputs *)

(** C4. With [TD_SIRENE_INDEX_MAX_CONCURRENT_REQUESTS] unset the cap is 1:
    the fallback string ["1"] is parsed, so the [isNaN] branch that
    yields 2 is not taken. *)
Theorem maxConcurrentRequests_unset_is_one :
  maxConcurrentRequests ∅ = 1.
Proof. reflexivity. Qed.

Lemma maxConcurrentRequests_absent (env : Env) :
  env !! "TD_SIRENE_INDEX_MAX_CONCURRENT_REQUESTS" = None →
  maxConcurrentRequests env = 1.
Proof. intros H. unfold maxConcurrentRequests. by rewrite H. Qed.

(** The cap is 2 only when the variable is set to a text that does not
    start with a number. *)
Lemma maxConcurrentRequests_not_a_number :
  maxConcurrentRequests {["TD_SIRENE_INDEX_MAX_CONCURRENT_REQUESTS" := "two"]}
  = 2.
Proof. reflexivity. Qed.

(** C1. With a chunk size of 2 and the concurrency variable unset, a
    batch of two lines is handed to [request] twice, whatever the
    schedule: two bulk writes are issued where [ceil(2/2)] is 1, and the
    chunks in submission order add up to the batch repeated. *)
Theorem bulkIndexByChunks_unset_cap_submits_twice :
  ∀ sch, ∃ st,
    bulkIndexByChunks (CHUNK_SIZE small_chunk_env)
      (maxConcurrentRequests small_chunk_env)
      [sample_line "111"; sample_line "222"] 2 sch = Some st
    ∧ started st = [[sample_line "111"; sample_line "222"];
                    [sample_line "111"; sample_line "222"]]
    ∧ dispatched_bulk_calls plain_config st
      = [flat [sample_line "111"; sample_line "222"];
         flat [sample_line "111"; sample_line "222"]]
    ∧ (2 + CHUNK_SIZE small_chunk_env - 1) / CHUNK_SIZE small_chunk_env = 1.
Proof.
  intros sch.
  assert (CHUNK_SIZE small_chunk_env = 2) as -> by reflexivity.
  assert (maxConcurrentRequests small_chunk_env = 1) as -> by reflexivity.
  destruct (bulkIndexByChunks_sequential 2 1
              [sample_line "111"; sample_line "222"] plain_config sch)
    as (st & Hrun & Hst & _); [lia | lia | simpl; lia | done |].
  exists st. split; [exact Hrun|].
  assert (started st = [[sample_line "111"; sample_line "222"];
                        [sample_line "111"; sample_line "222"]]) as Hs
    by (rewrite Hst; reflexivity).
  split; [exact Hs|]. split; [|reflexivity].
  unfold dispatched_bulk_calls. rewrite Hs. reflexivity.
Qed.

(** C2. With a cap of 2, four chunks, and a schedule on which the first
    call settles while the others stay pending, three calls are
    outstanding at once: the settled promise stays in the array, so every
    later [Promise.race] resolves at once and the counter is decremented
    although no call has completed. *)
Theorem bulkIndexByChunks_exceeds_cap :
  ∃ st,
    bulkIndexByChunks (CHUNK_SIZE windowed_env)
      (maxConcurrentRequests windowed_env)
      [sample_line "111"; sample_line "222"; sample_line "333";
       sample_line "444"] 4 [[0%nat]] = Some st
    ∧ maxConcurrentRequests windowed_env = 2
    ∧ trace st
      = [Start 0 [sample_line "111"]; Start 1 [sample_line "222"];
         Settle 0;
         Start 2 [sample_line "333"]; Start 3 [sample_line "444"];
         Settle 1; Settle 2; Settle 3]
    ∧ outstanding (take 5 (trace st)) = 3
    ∧ max_outstanding (trace st) = 3.
Proof. eexists. split; [reflexivity|]. repeat split. Qed.

(** With a cap of 1 the two [request] calls of an iteration are
    outstanding together, whatever the schedule. *)
Lemma bulkIndexByChunks_sequential_overlap :
  ∀ sch, ∃ st tr,
    bulkIndexByChunks 1 1 [sample_line "111"] 1 sch = Some st
    ∧ trace st = [Start 0 [sample_line "111"]; Start 1 [sample_line "111"]]
                 ++ tr
    ∧ outstanding (take 2 (trace st)) = 2.
Proof.
  intros sch.
  pose (st1 := iteration 1 1 [sample_line "111"] 0 (dispatch0 sch)).
  assert (promises st1 = []) as Hp.
  { unfold st1, iteration. simpl. unfold await_promise.
    by rewrite promises_settle_one, promises_suspend. }
  assert (∃ tr, trace st1 = [Start 0 [sample_line "111"];
                             Start 1 [sample_line "111"]] ++ tr)
    as [tr Htr].
  { unfold st1, iteration. simpl. apply trace_await_promise. }
  exists st1, tr. split; [|split; [exact Htr|by rewrite Htr]].
  change (bulkIndexByChunks 1 1 [sample_line "111"] 1 sch)
    with (Some (if bool_decide (0 < length (promises st1))%nat
                then await_all st1 else st1)).
  by rewrite Hp.
Qed.

(** ** The batch formatter *)

(** Under an identifier column that no object inherits, reading it gives
    the column of the record or [undefined]. *)
Lemma get_prop_own (doc : Doc) (key : string) :
  prototype_get key = None → get_prop doc key = PropString <$> doc !! key.
Proof. intros H. unfold get_prop. rewrite H. by destruct (doc !! key). Qed.

Lemma format_line_own indexConfig indexName i doc h :
  prototype_get (idKey indexConfig) = None →
  format_line indexConfig indexName i doc h
  = (h ++ option_list (malformed_log indexConfig i doc),
     inr (accepted_line indexConfig indexName doc)).
Proof.
  intros Hown.
  unfold format_line, malformed_log, accepted_line, accepted_id.
  rewrite (get_prop_own doc _ Hown).
  destruct (doc !! idKey indexConfig) as [v|] eqn:Hv;
    cbn [mbind option_bind fmap option_fmap option_map].
  2: { rewrite bool_decide_eq_true_2 by (by left). done. }
  cbn [prop_length prop_is prop_id default].
  destruct (decide (v = "")) as [->|Hne].
  { rewrite (bool_decide_eq_true_2 (String.length "" = 0%nat)) by done.
    rewrite (bool_decide_eq_true_2 (_ ∨ _)) by (by right).
    rewrite (bool_decide_eq_false_2 (_ ∧ _)) by (by intros [? _]). done. }
  rewrite (bool_decide_eq_false_2 (String.length v = 0%nat))
    by (by destruct v).
  rewrite (bool_decide_eq_false_2 (_ ∨ _))
    by (intros [?|[= ?]]; done).
  cbn [option_list]. rewrite app_nil_r.
  destruct (decide (v = idKey indexConfig)) as [Hk|Hk].
  - rewrite (bool_decide_eq_true_2 (v = _)) by done.
    rewrite (bool_decide_eq_false_2 (_ ∧ _)) by (by intros [_ ?]). done.
  - rewrite (bool_decide_eq_false_2 (v = _)) by done.
    rewrite (bool_decide_eq_true_2 (_ ∧ _)) by done. done.
Qed.

Lemma format_lines_own indexConfig indexName csvLines :
  prototype_get (idKey indexConfig) = None →
  ∀ i h,
    format_lines indexConfig indexName i csvLines h
    = (h ++ omap id (imap (λ j, malformed_log indexConfig (i + j)) csvLines),
       inr (accepted_line indexConfig indexName <$> csvLines)).
Proof.
  intros Hown.
  induction csvLines as [|doc docs IH]; intros i h.
  - simpl. by rewrite app_nil_r.
  - simpl. unfold mbind, exec_bind, bind.
    rewrite format_line_own, IH by done. unfold mret, exec_ret, ret.
    rewrite <- app_assoc. do 2 f_equal.
    rewrite Nat.add_0_r.
    assert (imap ((λ j, malformed_log indexConfig (i + j)) ∘ S) docs
            = imap (λ j, malformed_log indexConfig (S i + j)) docs) as ->.
    { apply imap_ext. intros j x _. simpl. f_equal. lia. }
    by destruct (malformed_log indexConfig i doc).
Qed.



(** ** The CSV transform *)

(** C10. Without [transformCsv] the transform never invokes its callback:
    the parser pushes no row downstream and stalls on the first row, so
    the formatter receives no record and forms no write action. *)
Theorem transform_without_hook_forwards_nothing
    (indexConfig : IndexProcessConfig) :
  transformCsv indexConfig = None →
  (∀ data callback, csv_transform indexConfig data callback = [])
  ∧ (∀ rows, (parse_rows indexConfig rows).1 = [])
  ∧ (∀ rows, rows ≠ [] → (parse_rows indexConfig rows).2 = Stalled)
  ∧ (∀ rows indexName h,
       format_lines indexConfig indexName 0 (parse_rows indexConfig rows).1 h
       = (h, inr [])).
Proof.
  intros Hnone.
  assert (∀ data callback, csv_transform indexConfig data callback = [])
    as Hcb by (intros; unfold csv_transform; by rewrite Hnone).
  assert (∀ rows, (parse_rows indexConfig rows).1 = []) as Hrows.
  { intros [|data rows]; [done|]. simpl. by rewrite Hcb. }
  split; [done|]. split; [done|]. split.
  - intros [|data rows] ?; [done|]. simpl. by rewrite Hcb.
  - intros rows indexName h. by rewrite Hrows.
Qed.

(** ** The create request *)

Section CreateFacts.

Variables (SEP version : string).

Lemma create_body_props (indexConfig : IndexProcessConfig) :
  obj_get "settings" (create_body indexConfig)
  = Some (JObj (default indexing_settings (settings indexConfig)))
  ∧ obj_get "mappings" (create_body indexConfig)
    = JObj <$> mappings indexConfig.
Proof.
  unfold create_body.
  destruct (mappings indexConfig), (settings indexConfig); done.
Qed.

(** C5, amended. The create request carries the caller's settings in
    place of the indexing settings when the caller supplies settings, and
    the indexing settings (refresh disabled, no replica) when the caller
    supplies none; the caller's mappings are sent when supplied. The new
    generation is created with these, under a name built from the alias,
    the version and the clock, and no alias is bound to it. *)
Theorem createIndexRelease_settings (indexConfig : IndexProcessConfig)
    (now : Z) (w : World) :
  let indexName := getIndexVersionName SEP version indexConfig now in
  indices w !! indexName = None →
  ∃ w',
    createIndexRelease SEP version indexConfig now w = inr (indexName, w')
    ∧ indices w' !! indexName
      = Some (mkIndexState (default [] (mappings indexConfig))
                (default indexing_settings (settings indexConfig)))
    ∧ (∀ g, g ≠ indexName → indices w' !! g = indices w !! g)
    ∧ bindings w' = bindings w.
Proof.
  intros indexName Hfree.
  unfold createIndexRelease, mbind, admin_bind, Client.indices_create.
  fold indexName. rewrite Hfree. simpl.
  destruct (create_body_props indexConfig) as [-> ->].
  eexists. split; [reflexivity|]. simpl. split; [|split; [|done]].
  - rewrite lookup_insert_eq. by destruct (mappings indexConfig).
  - intros g Hg. by rewrite lookup_insert_ne.
Qed.

End CreateFacts.

(** ** Where the code departs from the specification *)

(** C3 as stated fails: the alias is bound to the first release only, the
    release of the third generation returns normally, and afterwards the
    generation the alias was bound to is deleted while the staging
    generation, to which the alias was never bound, is the one kept. *)
Lemma finalize_deletes_previously_bound :
  Client.bound staged_world "sirene" = {["sirene-1.0.0-100"]}
  ∧ finalizeNewIndexRelease "-" "1.0.0" ∅ "sirene" "sirene-1.0.0-300"
      staged_world = inr (tt, staged_world_after)
  ∧ Client.bound staged_world_after "sirene" = {["sirene-1.0.0-300"]}
  ∧ indices staged_world_after !! "sirene-1.0.0-100" = None
  ∧ is_Some (indices staged_world_after !! "sirene-1.0.0-200")
  ∧ String.prefix (release_prefix "-" "1.0.0" "sirene") "sirene-1.0.0-200"
    = true.
Proof. repeat split; try (vm_compute; reflexivity). vm_compute. eauto. Qed.

(** C5 as stated fails: the caller sets the number of shards only, and the
    settings of the create request hold neither [refresh_interval] nor
    [number_of_replicas]. *)
Lemma create_body_drops_indexing_settings :
  settings sharded_config = Some [("number_of_shards", JNum 3)]
  ∧ obj_get "refresh_interval" [("number_of_shards", JNum 3)] = None
  ∧ obj_get "refresh_interval" indexing_settings = Some (JNum (-1))
  ∧ as_obj (obj_get "settings" (create_body sharded_config))
    = [("number_of_shards", JNum 3)]
  ∧ obj_get "refresh_interval"
      (as_obj (obj_get "settings" (create_body sharded_config))) = None
  ∧ obj_get "number_of_replicas"
      (as_obj (obj_get "settings" (create_body sharded_config))) = None.
Proof. repeat split. Qed.


(** ** Instances *)

Lemma finalize_keeps_last_sorted_witness :
  finalizeNewIndexRelease "-" "1.0.0" ∅ "sirene" "sirene-1.0.0-300"
    staged_world = inr (tt, staged_world_after)
  ∧ Client.bound staged_world_after "sirene" = {["sirene-1.0.0-300"]}.
Proof.
  split; [vm_compute; reflexivity|].
  apply (finalize_keeps_last_sorted "-" "1.0.0" ∅ "sirene" "sirene-1.0.0-300"
           staged_world staged_world_after).
  vm_compute; reflexivity.
Defined.

Lemma createIndexRelease_settings_witness :
  indices staged_world
    !! getIndexVersionName "-" "1.0.0" sharded_config 1700000000000 = None
  ∧ ∃ w',
      createIndexRelease "-" "1.0.0" sharded_config 1700000000000 staged_world
      = inr (getIndexVersionName "-" "1.0.0" sharded_config 1700000000000, w')
      ∧ indices w'
          !! getIndexVersionName "-" "1.0.0" sharded_config 1700000000000
        = Some (mkIndexState [] [("number_of_shards", JNum 3)]).
Proof.
  split; [vm_compute; reflexivity|].
  destruct (createIndexRelease_settings "-" "1.0.0" sharded_config
              1700000000000 staged_world) as (w' & Hrun & Hix & _).
  - vm_compute; reflexivity.
  - exists w'. split; [exact Hrun|exact Hix].
Defined.

Lemma retry_once_on_429_witness :
  ∃ pre post,
    logBulkErrorsAndRetry rejecting_index "sirene-1.0.0-300" sample_response
      sample_body []
    = ([] ++ pre
          ++ ([EvLog (WarnRetrying (Some "222") "sirene-1.0.0-300");
               EvCall (CallIndex "sirene-1.0.0-300" (Some "222")
                         (Some (OpDoc {["siret" := "222"]})))]
              ++ [EvLog (ErrorRetrying (Some "222") "sirene-1.0.0-300"
                           (ClientError "es_rejected_execution_exception"))]
              ++ [EvLog (ErrorBulkIndex
                           (mkBulkError 429
                              (Some "es_rejected_execution_exception")
                              (Some (OpDoc {["siret" := "222"]}))))])
          ++ post, inr tt).
Proof.
  destruct (retry_once_on_429 rejecting_index "sirene-1.0.0-300"
              sample_response sample_body 1 "index"
              (mkItem (Some 429) (Some "es_rejected_execution_exception"))
              "es_rejected_execution_exception"
              (mkMeta (Some "222") "sirene-1.0.0-300" "_doc") [])
    as (pre & post & _ & _ & _ & Hall & _).
  - reflexivity.
  - simpl. lia.
  - reflexivity.
  - discriminate.
  - reflexivity.
  - reflexivity.
  - reflexivity.
  - exists pre, post. exact Hall.
Defined.

Lemma bulk_errors_always_logged_witness :
  ∃ evs,
    logBulkErrorsAndRetry rejecting_index "sirene-1.0.0-300" sample_response
      sample_body [] = ([] ++ evs, inr tt)
    ∧ EvLog (ErrorBulkIndex
               (mkBulkError 400 (Some "mapper_parsing_exception")
                  (Some (OpDoc {["siret" := "333"]})))) ∈ evs.
Proof.
  destruct (bulk_errors_always_logged rejecting_index "sirene-1.0.0-300"
              sample_response sample_body 2
              [("index", mkItem (Some 400) (Some "mapper_parsing_exception"))]
              "index"
              (mkItem (Some 400) (Some "mapper_parsing_exception"))
              "mapper_parsing_exception" [])
    as (evs & Hrun & Hlog & _).
  - reflexivity.
  - simpl. lia.
  - reflexivity.
  - simpl. left.
  - discriminate.
  - reflexivity.
  - reflexivity.
  - exists evs. split; [exact Hrun|exact Hlog].
Defined.

Lemma transport_failure_swallowed_witness :
  requestBulkIndex failing_bulk rejecting_index "sirene-1.0.0-300"
    sample_body []
  = ([] ++ [EvCall (CallBulk sample_body);
            EvLog (ErrorFatal "sirene-1.0.0-300"
                     (ClientError "ConnectionError"))], inr tt).
Proof.
  apply (proj1 (transport_failure_swallowed failing_bulk rejecting_index
                  "sirene-1.0.0-300" sample_body [])).
  - discriminate.
  - reflexivity.
Defined.


Lemma transform_without_hook_forwards_nothing_witness :
  transformCsv plain_config = None
  ∧ (parse_rows plain_config [{["siret" := "111"]}; {["siret" := "222"]}]).1
    = [].
Proof.
  split; [reflexivity|].
  apply (proj1 (proj2 (transform_without_hook_forwards_nothing plain_config
                         eq_refl))).
Defined.

(** * Further properties *)

(** ** What is outstanding when the dispatcher returns *)

Lemma accounted_start chunk st :
  accounted st → accounted (start_request chunk st).2.
Proof.
  intros (Hn & Hb & Ho). unfold accounted. simpl.
  rewrite length_app, outstanding_app, Ho. simpl.
  split; [done|]. split; [|lia].
  intros id Hid. apply Hb in Hid. lia.
Qed.

Lemma accounted_settle_one st id : accounted st → accounted (settle_one st id).
Proof.
  intros (Hn & Hb & Ho). unfold settle_one, is_pending, is_settled.
  destruct (bool_decide (id < length (started st))%nat) eqn:Hlt; [|done].
  destruct (bool_decide (id ∈ settled st)) eqn:Hs; [done|]. simpl.
  apply bool_decide_eq_true in Hlt. apply bool_decide_eq_false in Hs.
  unfold accounted. simpl. rewrite length_app, outstanding_app, Ho. simpl.
  split; [|split; [|lia]].
  - apply NoDup_app. split; [done|]. split; [|apply NoDup_singleton].
    intros x Hx ->%list_elem_of_singleton. done.
  - intros x [Hx| ->%list_elem_of_singleton]%elem_of_app; [by apply Hb|done].
Qed.

Lemma accounted_settle_all ids st :
  accounted st → accounted (settle_all ids st).
Proof.
  unfold settle_all. revert st.
  induction ids as [|id ids IH]; intros st H; simpl; [done|].
  by apply IH, accounted_settle_one.
Qed.

Lemma accounted_suspend st : accounted st → accounted (suspend st).
Proof.
  intros H. unfold suspend. destruct (sched st); [done|].
  by apply accounted_settle_all.
Qed.

Lemma accounted_await_promise id st :
  accounted st → accounted (await_promise id st).
Proof. intros H. by apply accounted_settle_one, accounted_suspend. Qed.

Lemma accounted_await_race st : accounted st → accounted (await_race st).
Proof.
  intros H. unfold await_race.
  destruct (existsb _ _); [by apply accounted_suspend|].
  destruct (promises (suspend st));
    [|apply accounted_settle_one]; by apply accounted_suspend.
Qed.

Lemma accounted_iteration C M body i st :
  accounted st → accounted (iteration C M body i st).
Proof.
  intros H. unfold iteration.
  pose proof (accounted_start (js_slice body i (i + C)) st H) as H1.
  destruct (start_request _ st) as [p st1]. simpl in H1.
  destruct (M >? 1).
  - assert (accounted (add_in_flight 1 (push_promise p st1))) as H2 by done.
    destruct (_ >=? M); [|done].
    by apply accounted_await_race in H2.
  - pose proof (accounted_start (js_slice body i (i + C)) st1 H1) as H2.
    destruct (start_request _ st1) as [q st2]. simpl in H2.
    by apply accounted_await_promise.
Qed.

Lemma accounted_chunk_loop C M body fuel : ∀ i st st',
  accounted st → chunk_loop C M body fuel i st = Some st' → accounted st'.
Proof.
  induction fuel as [|fuel IH]; intros i st st' H; simpl.
  - destruct (i <? _); [done|]. by intros [= <-].
  - destruct (i <? _); [|by intros [= <-]].
    apply IH. by apply accounted_iteration.
Qed.

(** Settling is monotone, and settles what it is asked to. *)
Lemma settled_settle_one_mono st id x :
  x ∈ settled st → x ∈ settled (settle_one st id).
Proof.
  intros Hx. unfold settle_one. destruct (is_pending st id); [|done].
  simpl. apply elem_of_app. by left.
Qed.

Lemma settled_settle_one st id :
  (id < length (started st))%nat → id ∈ settled (settle_one st id).
Proof.
  intros Hlt. unfold settle_one, is_pending, is_settled.
  rewrite bool_decide_eq_true_2 by done. simpl.
  destruct (decide (id ∈ settled st)) as [Hs|Hs].
  - by rewrite bool_decide_eq_true_2.
  - rewrite bool_decide_eq_false_2 by done. simpl.
    apply elem_of_app. right. by apply list_elem_of_singleton.
Qed.

Lemma settled_settle_all ids : ∀ st id,
  id ∈ ids → (id < length (started st))%nat →
  id ∈ settled (settle_all ids st).
Proof.
  unfold settle_all.
  induction ids as [|x ids IH]; intros st id Hid Hlt;
    [by apply elem_of_nil in Hid|].
  simpl. destruct (decide (id ∈ ids)) as [Hin|Hin].
  - apply IH; [done|]. by rewrite started_settle_one.
  - apply elem_of_cons in Hid as [->|?]; [|done].
    assert (∀ l s, x ∈ settled s → x ∈ settled (foldl settle_one s l)) as Hm.
    { induction l as [|y l IHl]; intros s Hs; [done|].
      simpl. by apply IHl, settled_settle_one_mono. }
    by apply Hm, settled_settle_one.
Qed.

Lemma promises_await_race st : promises (await_race st) = promises st.
Proof.
  unfold await_race.
  destruct (existsb _ _); [apply promises_suspend|].
  destruct (promises (suspend st)) eqn:Heq;
    [|rewrite promises_settle_one]; apply promises_suspend.
Qed.

(** Under the concurrent branch every started call is in [promises]. *)
Lemma promises_iteration C M body i st :
  1 < M → promises st = seq 0 (length (started st)) →
  promises (iteration C M body i st)
  = seq 0 (length (started (iteration C M body i st))).
Proof.
  intros HM Hp. rewrite started_iteration. unfold copies, iteration.
  destruct (Z.gtb_spec M 1); [|lia]. simpl.
  assert (promises st ++ [length (started st)]
          = seq 0 (length (started st ++ [js_slice body i (i + C)]))) as Hgoal.
  { rewrite length_app. simpl. rewrite Nat.add_1_r, seq_S, Hp. done. }
  destruct (_ >=? M); simpl; [|done].
  by rewrite promises_await_race.
Qed.

Lemma promises_chunk_loop C M body fuel : ∀ i st st',
  1 < M → promises st = seq 0 (length (started st)) →
  chunk_loop C M body fuel i st = Some st' →
  promises st' = seq 0 (length (started st')).
Proof.
  induction fuel as [|fuel IH]; intros i st st' HM Hp; simpl.
  - destruct (i <? _); [done|]. by intros [= <-].
  - destruct (i <? _); [|by intros [= <-]].
    apply IH; [done|]. by apply promises_iteration.
Qed.

Lemma all_settled_outstanding st :
  accounted st →
  (∀ id, (id < length (started st))%nat → id ∈ settled st) →
  outstanding (trace st) = 0.
Proof.
  intros (Hn & Hb & Ho) Hall. rewrite Ho.
  assert (settled st ≡ₚ seq 0 (length (started st))) as Hperm.
  { apply NoDup_Permutation; [done|apply NoDup_seq|].
    intros x. rewrite elem_of_seq. split; [intros ?%Hb; lia|].
    intros [_ ?]. apply Hall. lia. }
  apply Permutation_length in Hperm. rewrite length_seq in Hperm. lia.
Qed.

(** X5. When the batch is smaller than the chunk size, or the concurrency cap
    is above one, the dispatcher returns only when every call it has
    started has settled, whatever the schedule. *)
Theorem dispatcher_drains C M body fuel sch st :
  Z.of_nat (length body) < C ∨ 1 < M →
  bulkIndexByChunks C M body fuel sch = Some st →
  outstanding (trace st) = 0.
Proof.
  intros Hcase. unfold bulkIndexByChunks.
  assert (accounted (dispatch0 sch)) as H0.
  { unfold accounted. simpl. split; [constructor|].
    split; [|done]. by intros id ?%elem_of_nil. }
  destruct (Z.gtb_spec C (Z.of_nat (length body))) as [Hsmall|Hbig].
  - simpl. intros [= <-]. apply all_settled_outstanding.
    + apply accounted_await_promise. by apply (accounted_start body) in H0.
    + intros id. rewrite started_await_promise. simpl. intros Hid.
      assert (id = 0%nat) as -> by lia.
      unfold await_promise. apply settled_settle_one.
      rewrite started_suspend. simpl. lia.
  - destruct Hcase as [?|HM]; [lia|].
    destruct (chunk_loop C M body fuel 0 (dispatch0 sch)) as [st1|] eqn:Hloop;
      [|done].
    simpl. intros [= <-].
    pose proof (accounted_chunk_loop _ _ _ _ _ _ _ H0 Hloop) as Hacc.
    pose proof (promises_chunk_loop C M body fuel 0 (dispatch0 sch) st1 HM
                  eq_refl Hloop) as Hp.
    case_bool_decide as Hne.
    + apply all_settled_outstanding.
      * unfold await_all. by apply accounted_settle_all, accounted_suspend.
      * intros id. rewrite started_await_all. intros Hid.
        unfold await_all. apply settled_settle_all.
        -- rewrite promises_suspend, Hp. apply elem_of_seq. lia.
        -- by rewrite started_suspend.
    + apply all_settled_outstanding; [done|].
      intros id Hid. rewrite Hp, length_seq in Hne. lia.
Qed.




(** ** What the error loop logs and retries *)

Lemma for_each_omap {A X} (p : Event → option X) (f : A → Exec unit)
    (g : A → list X) (l : list A) :
  Forall (λ x, ∀ h, ∃ evs, f x h = (h ++ evs, inr tt) ∧ omap p evs = g x) l →
  ∀ h, ∃ evs, for_each f l h = (h ++ evs, inr tt) ∧ omap p evs = l ≫= g.
Proof.
  induction 1 as [|x l Hx _ IH]; intros h.
  - exists []. by rewrite app_nil_r.
  - destruct (Hx h) as (e1 & H1 & P1).
    destruct (IH (h ++ e1)) as (e2 & H2 & P2).
    exists (e1 ++ e2). simpl. unfold bind. rewrite H1, H2, app_assoc.
    split; [done|]. rewrite omap_app, P1, P2. done.
Qed.

Section LoopReadings.

Variable client_index :
  list Event → string → option string → option BulkOperationContainer →
  option Exn.

Lemma body_id_at body k :
  (k * 2 < length body)%nat → body_id body k = inr (id_at body k).
Proof.
  intros Hk. unfold body_id, id_at.
  destruct (lookup_lt_is_Some_2 body (k * 2)%nat Hk) as [c ->].
  by destruct c.
Qed.

(** One operation key: its events, read for the error logs and for the
    single-document writes. *)
Lemma handle_operation_readings indexName body k action op h :
  (k * 2 < length body)%nat →
  ∃ evs,
    handle_operation client_index indexName body k action op h
    = (h ++ evs, inr tt)
    ∧ error_logs evs
      = bulk_error_of body k <$> option_list (failed_outcome action op)
    ∧ index_calls evs
      = retry_of indexName body
        <$> filter (λ kit, status kit.2 = Some 429)
              (pair k <$> option_list (failed_outcome action op)).
Proof.
  intros Hk. unfold failed_outcome.
  destruct (decide (op = "")) as [->|Hop].
  { exists []. rewrite app_nil_r.
    rewrite handle_operation_skip by by left. done. }
  rewrite bool_decide_eq_true_2 by done.
  destruct (item_get action op) as [it|] eqn:Hit; simpl.
  2: { exists []. rewrite app_nil_r.
       rewrite handle_operation_skip by (right; by rewrite Hit). done. }
  destruct (error it) as [e|] eqn:He.
  2: { exists []. rewrite app_nil_r.
       rewrite handle_operation_skip by (right; by rewrite Hit). done. }
  eexists. split.
  { apply (handle_operation_error client_index indexName body k action op it
             (id_at body k)); [done | done | by rewrite He
                               | by apply body_id_at]. }
  unfold error_logs, index_calls. rewrite !omap_app. simpl.
  rewrite filter_cons. simpl.
  case_bool_decide as H429.
  - rewrite decide_True by done. unfold retry_events. rewrite !omap_app. simpl.
    split; [by destruct (client_index _ _ _ _)|].
    by destruct (client_index _ _ _ _).
  - rewrite decide_False by done. done.
Qed.

Lemma handle_item_readings indexName body k action h :
  (k * 2 < length body)%nat →
  ∃ evs,
    handle_item client_index indexName body k action h = (h ++ evs, inr tt)
    ∧ error_logs evs
      = bulk_error_of body k <$> omap (failed_outcome action) action.*1
    ∧ index_calls evs
      = retry_of indexName body
        <$> filter (λ kit, status kit.2 = Some 429)
              (pair k <$> omap (failed_outcome action) action.*1).
Proof.
  intros Hk. unfold handle_item.
  assert (∀ ops : list string,
            omap (failed_outcome action) ops
            = ops ≫= λ op, option_list (failed_outcome action op)) as Hom.
  { induction ops as [|op ops IH]; [done|]. csimpl. rewrite <- IH.
    by destruct (failed_outcome action op). }
  destruct (for_each_omap
              (λ e, match e with EvLog (ErrorBulkIndex b) => Some b | _ => None end)
              (handle_operation client_index indexName body k action)
              (λ op, bulk_error_of body k <$> option_list (failed_outcome action op))
              action.*1) with (h := h) as (evs & Hrun & Hlog).
  { apply Forall_forall. intros op _ h'.
    destruct (handle_operation_readings indexName body k action op h' Hk)
      as (evs & ? & ? & _). eauto. }
  destruct (for_each_omap
              (λ e, match e with
                    | EvCall (CallIndex i id d) => Some (i, id, d)
                    | _ => None
                    end)
              (handle_operation client_index indexName body k action)
              (λ op, retry_of indexName body
                     <$> filter (λ kit, status kit.2 = Some 429)
                           (pair k <$> option_list (failed_outcome action op)))
              action.*1) with (h := h) as (evs' & Hrun' & Hidx).
  { apply Forall_forall. intros op _ h'.
    destruct (handle_operation_readings indexName body k action op h' Hk)
      as (ev0 & ? & _ & ?). eauto. }
  rewrite Hrun in Hrun'. injection Hrun' as Heq.
  apply app_inv_head in Heq. subst evs'.
  exists evs. split; [done|]. split.
  - unfold error_logs. rewrite Hlog, Hom.
    generalize (action.*1). induction l as [|op l IH]; [done|].
    csimpl. rewrite fmap_app, IH. done.
  - unfold index_calls. rewrite Hidx, Hom.
    generalize (action.*1). induction l as [|op l IH]; [done|].
    csimpl. rewrite fmap_app, filter_app, fmap_app, IH. done.
Qed.

Lemma loop_readings indexName r body h :
  errors r = true →
  (length (items r) * 2 ≤ length body)%nat →
  ∃ evs,
    logBulkErrorsAndRetry client_index indexName r body h
    = (h ++ evs, inr tt)
    ∧ error_logs evs
      = (λ kit, bulk_error_of body kit.1 kit.2) <$> error_outcomes (items r)
    ∧ index_calls evs
      = retry_of indexName body
        <$> filter (λ kit, status kit.2 = Some 429)
              (error_outcomes (items r)).
Proof.
  intros Herr Hlen. unfold logBulkErrorsAndRetry. rewrite Herr.
  set (F := λ ka : nat * BulkResponseItemContainer,
              pair ka.1 <$> omap (failed_outcome ka.2) ka.2.*1).
  assert (Forall (λ ka : nat * BulkResponseItemContainer,
                    (ka.1 * 2 < length body)%nat) (imap pair (items r)))
    as Hks.
  { apply Forall_lookup. intros i [k action] Hi.
    apply list_lookup_imap_Some in Hi as (a & Ha & [= -> ->]).
    apply lookup_lt_Some in Ha. simpl. lia. }
  destruct (for_each_omap
              (λ e, match e with EvLog (ErrorBulkIndex b) => Some b | _ => None end)
              (λ ka, handle_item client_index indexName body ka.1 ka.2)
              (λ ka, (λ kit, bulk_error_of body kit.1 kit.2) <$> F ka)
              (imap pair (items r))) with (h := h) as (evs & Hrun & Hlog).
  { eapply Forall_impl; [exact Hks|]. intros [k action] Hk h'. simpl in *.
    destruct (handle_item_readings indexName body k action h' Hk)
      as (ev0 & ? & Hl & _).
    exists ev0. split; [done|]. unfold F. simpl.
    rewrite <- list_fmap_compose. exact Hl. }
  destruct (for_each_omap
              (λ e, match e with
                    | EvCall (CallIndex i id d) => Some (i, id, d)
                    | _ => None
                    end)
              (λ ka, handle_item client_index indexName body ka.1 ka.2)
              (λ ka, retry_of indexName body
                     <$> filter (λ kit, status kit.2 = Some 429) (F ka))
              (imap pair (items r))) with (h := h) as (evs' & Hrun' & Hidx).
  { eapply Forall_impl; [exact Hks|]. intros [k action] Hk h'. simpl in *.
    destruct (handle_item_readings indexName body k action h' Hk)
      as (ev0 & ? & _ & Hi). eauto. }
  rewrite Hrun in Hrun'. injection Hrun' as Heq.
  apply app_inv_head in Heq. subst evs'.
  exists evs. split; [done|]. unfold error_outcomes. fold F. split.
  - unfold error_logs. rewrite Hlog.
    generalize (imap pair (items r)). induction l as [|ka l IH]; [done|].
    csimpl. rewrite fmap_app, IH. done.
  - unfold index_calls. rewrite Hidx.
    generalize (imap pair (items r)). induction l as [|ka l IH]; [done|].
    csimpl. rewrite filter_app, fmap_app, IH. done.
Qed.

(** X8. The bulk-index errors logged for a response that reports errors are
    the failed outcomes of its items, one message each, in response
    order, each with its status (0 when missing), its error and the
    element at position [2k+1] of the body; an outcome without error
    is not logged. *)
Theorem error_logs_are_failed_outcomes indexName r body h :
  errors r = true →
  (length (items r) * 2 ≤ length body)%nat →
  ∃ evs,
    logBulkErrorsAndRetry client_index indexName r body h
    = (h ++ evs, inr tt)
    ∧ error_logs evs
      = (λ kit, bulk_error_of body kit.1 kit.2) <$> error_outcomes (items r).
Proof.
  intros Herr Hlen.
  destruct (loop_readings indexName r body h Herr Hlen) as (evs & ? & ? & _).
  eauto.
Qed.

(** X9. The single-document writes issued for a response that reports errors
    are the retries of its failed outcomes of status 429, one write
    each, in response order: an outcome with any other status is never
    retried. *)
Theorem retries_are_429_outcomes indexName r body h :
  errors r = true →
  (length (items r) * 2 ≤ length body)%nat →
  ∃ evs,
    logBulkErrorsAndRetry client_index indexName r body h
    = (h ++ evs, inr tt)
    ∧ index_calls evs
      = retry_of indexName body
        <$> filter (λ kit, status kit.2 = Some 429)
              (error_outcomes (items r)).
Proof.
  intros Herr Hlen.
  destruct (loop_readings indexName r body h Herr Hlen) as (evs & ? & _ & ?).
  eauto.
Qed.

Lemma handle_item_skip indexName body k action h :
  (∀ op, failed_outcome action op = None) →
  handle_item client_index indexName body k action h = (h, inr tt).
Proof.
  intros Hno. unfold handle_item.
  generalize (action.*1). intros ops. revert h.
  induction ops as [|op ops IH]; intros h; [done|].
  simpl. unfold bind. rewrite handle_operation_skip; [apply IH|].
  specialize (Hno op). unfold failed_outcome in Hno.
  destruct (decide (op = "")) as [->|Hop]; [by left|right].
  rewrite bool_decide_eq_true_2 in Hno by done.
  destruct (item_get action op) as [it|]; [|done]. simpl in *.
  by destruct (error it).
Qed.

Variable client_bulk :
  list Event → list BulkOperationContainer → Exn + option BulkResponse.

(** X10. When the first failed outcome of a response has status 429 and its
    item lies beyond the pairs of the body, reading the id of its header
    throws before anything is logged or retried; the executor catches
    the exception, logs it as a fatal error of the bulk write and returns
    normally. Neither that outcome nor the ones after it are logged. *)
Theorem short_body_is_fatal indexName r body k op it h :
  body ≠ [] → client_bulk h body = inr (Some r) →
  errors r = true →
  items r !! k = Some [(op, it)] →
  op ≠ "" → status it = Some 429 → is_Some (error it) →
  (length body ≤ k * 2)%nat →
  Forall (λ action, ∀ op', failed_outcome action op' = None)
    (take k (items r)) →
  requestBulkIndex client_bulk client_index indexName body h
  = (h ++ [EvCall (CallBulk body); EvLog (ErrorFatal indexName TypeError)],
     inr tt).
Proof.
  intros Hb Hresp Herr Hk Hop Hst He Hshort Hpre.
  unfold requestBulkIndex. rewrite bool_decide_eq_false_2 by done.
  unfold try_catch, mbind, exec_bind, bind, call_bulk. rewrite Hresp.
  unfold logBulkErrorsAndRetry. rewrite Herr.
  set (h1 := h ++ [EvCall (CallBulk body)]).
  assert (imap pair (items r) !! k = Some (k, [(op, it)])) as Hik
    by (by rewrite list_lookup_imap, Hk).
  rewrite <- (take_drop_middle _ _ _ Hik), for_each_app.
  assert (for_each (λ ka, handle_item client_index indexName body ka.1 ka.2)
            (take k (imap pair (items r))) h1 = (h1, inr tt)) as ->.
  { assert (Forall (λ ka : nat * BulkResponseItemContainer,
                      ∀ op', failed_outcome ka.2 op' = None)
              (take k (imap pair (items r)))) as Hall.
    { apply Forall_lookup. intros i [j a] Hi. simpl.
      apply lookup_take_Some in Hi as [Hi Hlt].
      apply list_lookup_imap_Some in Hi as (a' & Ha & [= -> ->]).
      eapply (Forall_lookup_1 _ _ _ _ Hpre).
      by rewrite lookup_take_lt. }
    revert Hall. generalize (take k (imap pair (items r))).
    induction 1 as [|ka l Hka _ IH]; [done|].
    simpl. unfold bind. by rewrite handle_item_skip. }
  simpl. unfold bind, handle_item. simpl. unfold bind, handle_operation.
  simpl. rewrite decide_True by done. simpl.
  rewrite bool_decide_eq_true_2 by done.
  rewrite bool_decide_eq_true_2 by done. simpl.
  rewrite bool_decide_eq_true_2 by done.
  unfold mbind, exec_bind, bind, lift, body_id.
  rewrite lookup_ge_None_2 by done. simpl. unfold emit.
  unfold h1. by rewrite <- app_assoc.
Qed.

End LoopReadings.

(** ** Response items and the lines of the chunk *)

Lemma flat_lookup_index (lines : list Line) (k : nat) :
  flat lines !! (k * 2)%nat = (λ l, OpIndex l.1) <$> lines !! k.
Proof.
  revert k. induction lines as [|[m d] lines IH]; intros k; [done|].
  destruct k as [|k]; [done|]. exact (IH k).
Qed.

Lemma flat_lookup_doc (lines : list Line) (k : nat) :
  flat lines !! (k * 2 + 1)%nat = (λ l, OpDoc l.2) <$> lines !! k.
Proof.
  revert k. induction lines as [|[m d] lines IH]; intros k; [done|].
  destruct k as [|k]; [done|]. exact (IH k).
Qed.

Lemma length_flat (lines : list Line) :
  length (flat lines) = (length lines * 2)%nat.
Proof.
  induction lines as [|[m d] lines IH]; [done|]. simpl. by rewrite IH.
Qed.

Lemma retry_of_flat (indexName : string) (lines : list Line)
    (kit : nat * BulkResponseItem) :
  retry_of indexName (flat lines) kit = line_retry indexName lines kit.
Proof.
  unfold retry_of, line_retry, id_at.
  rewrite flat_lookup_index, flat_lookup_doc.
  by destruct (lines !! kit.1).
Qed.

Section RequestRetries.

Variable client_bulk :
  list Event → list BulkOperationContainer → Exn + option BulkResponse.
Variable client_index :
  list Event → string → option string → option BulkOperationContainer →
  option Exn.

(** X11. A [request] without formatter hook, on a chunk that is not empty,
    whose bulk write is answered by a response that reports errors and
    has no more items than the chunk has lines: the request logs its
    progress, issues the bulk write of the flattened chunk, and then
    issues one single-document write for each failed outcome of status
    429, in response order and for no other outcome; the write for
    item [k] is addressed to the id of line [k] of the chunk and
    carries the record of that line. It returns normally. *)
Theorem request_retries_failed_lines (indexName : string)
    (indexConfig : IndexProcessConfig) (lines : list Line) (r : BulkResponse)
    (h : list Event) :
  dataFormatterFn indexConfig = None →
  lines ≠ [] →
  client_bulk (h ++ [EvLog (InfoIndexing (length lines) indexName)])
    (flat lines) = inr (Some r) →
  errors r = true →
  (length (items r) ≤ length lines)%nat →
  ∃ evs,
    request client_bulk client_index indexName indexConfig lines h
    = (h ++ [EvLog (InfoIndexing (length lines) indexName);
             EvCall (CallBulk (flat lines))] ++ evs, inr tt)
    ∧ index_calls evs
      = line_retry indexName lines
        <$> filter (λ kit, status kit.2 = Some 429)
              (error_outcomes (items r)).
Proof.
  intros Hf Hne Hresp Herr Hlen.
  destruct (loop_readings client_index indexName r (flat lines)
              ((h ++ [EvLog (InfoIndexing (length lines) indexName)])
               ++ [EvCall (CallBulk (flat lines))]) Herr)
    as (evs & Hrun & _ & Hidx).
  { rewrite length_flat. lia. }
  exists evs. split.
  - unfold request, bulk_body. rewrite Hf.
    rewrite bool_decide_eq_true_2 by done.
    unfold mbind, exec_bind, bind, emit, requestBulkIndex.
    rewrite bool_decide_eq_false_2 by (by rewrite flat_nil).
    unfold try_catch, call_bulk, mbind, exec_bind, bind. cbv beta.
    rewrite Hresp, Hrun. by rewrite <- !app_assoc.
  - rewrite Hidx. apply list_fmap_ext. intros _ kit _. apply retry_of_flat.
Qed.

End RequestRetries.

(** ** The batch of a [writev] *)

(** X12. For an identifier column whose name is not the name of a member
    that every object inherits, the formatter never throws. It returns
    one entry per record; the entries that are not [null] are the write
    actions of the records it keeps, in the order of the batch; and it
    logs one message for each record without identifier, in order,
    carrying the position of the record in the batch. *)
Theorem format_lines_reading indexConfig indexName csvLines :
  prototype_get (idKey indexConfig) = None →
  ∀ i h,
  ∃ body,
    format_lines indexConfig indexName i csvLines h
    = (h ++ omap id (imap (λ j, malformed_log indexConfig (i + j)) csvLines),
       inr body)
    ∧ body = accepted_line indexConfig indexName <$> csvLines.
Proof.
  intros Hown i h. eexists. split; [|reflexivity].
  by apply format_lines_own.
Qed.





(** ** Generation names *)

Lemma prefix_app_same (a s t : string) :
  String.prefix (a +:+ s) (a +:+ t) = String.prefix s t.
Proof.
  induction a as [|c a IH]; [done|].
  simpl. by destruct (ascii_dec c c).
Qed.

Lemma prefix_app_r (s t : string) : String.prefix s (s +:+ t) = true.
Proof.
  induction s as [|c s IH]; [by destruct t|].
  simpl. by destruct (ascii_dec c c).
Qed.

Section GenerationNames.

Variables (SEP version : string).

(** X14. A generation created under an alias and the running version matches
    the pattern by which the release of that alias looks for old
    generations. *)
Theorem generation_name_matches_release_prefix
    (indexConfig : IndexProcessConfig) (now : Z) :
  String.prefix (release_prefix SEP version (alias indexConfig))
    (getIndexVersionName SEP version indexConfig now) = true.
Proof.
  unfold release_prefix, getIndexVersionName.
  rewrite !prefix_app_same. apply prefix_app_r.
Qed.

(** X15. Two runs of one pipeline under one alias get different generation
    names exactly when their clock readings differ. *)
Theorem generation_name_unique_per_clock
    (indexConfig : IndexProcessConfig) (now1 now2 : Z) :
  getIndexVersionName SEP version indexConfig now1
  = getIndexVersionName SEP version indexConfig now2
  ↔ now1 = now2.
Proof.
  split; [|by intros ->].
  unfold getIndexVersionName. intros H.
  do 4 apply (inj (String.app _)) in H.
  by apply (inj pretty) in H.
Qed.

End GenerationNames.

(** ** Settings of a released generation *)

Lemma obj_get_obj_set (k k' : string) (v : JsVal) (o : JsObj) :
  obj_get k (obj_set k' v o) = if decide (k' = k) then Some v else obj_get k o.
Proof.
  induction o as [|[k0 v0] o IH]; simpl.
  - by destruct (decide (k' = k)).
  - destruct (decide (k0 = k')) as [->|Hne]; simpl.
    + destruct (decide (k' = k)); done.
    + destruct (decide (k0 = k)) as [->|Hne']; simpl.
      * by rewrite decide_False by done.
      * exact IH.
Qed.

Lemma obj_set_same (k : string) (v : JsVal) (o : JsObj) :
  obj_get k o = Some v → obj_set k v o = o.
Proof.
  induction o as [|[k0 v0] o IH]; simpl; [done|].
  destruct (decide (k0 = k)) as [->|Hne]; [by intros [= ->]|].
  intros H. by rewrite IH.
Qed.

Section ReleaseFacts.

Variables (SEP version : string) (env : Env).

Lemma final_settings_get (o : JsObj) (k : string) :
  obj_get k (spread o (final_settings env))
  = if decide (k = "refresh_interval") then
      Some (JStr (or_string (env !! "TD_SIRENE_INDEX_REFRESH_INTERVAL") "1s"))
    else if decide (k = "number_of_replicas") then
      Some (JStr (or_string (env !! "TD_SIRENE_INDEX_NB_REPLICAS") "3"))
    else obj_get k o.
Proof.
  unfold spread, final_settings. simpl. rewrite !obj_get_obj_set.
  destruct (decide (k = "refresh_interval")) as [->|H1].
  - by rewrite decide_True.
  - rewrite decide_False by done.
    destruct (decide (k = "number_of_replicas")) as [->|H2].
    + by rewrite decide_True.
    + by rewrite decide_False.
Qed.

Lemma settle_settings_idem (ix : IndexState) :
  settle_settings env (settle_settings env ix) = settle_settings env ix.
Proof.
  unfold settle_settings. cbn [ix_mappings ix_settings]. f_equal.
  pose proof (final_settings_get (ix_settings ix)) as Hget.
  set (o := spread (ix_settings ix) (final_settings env)) in *.
  unfold spread, final_settings. cbn [foldl fst snd].
  rewrite (obj_set_same "number_of_replicas") by (by rewrite Hget).
  by rewrite obj_set_same by (by rewrite Hget).
Qed.

(** X17. After a release the new generation carries the replica count and the
    refresh interval of the environment, or "3" and "1s"; its other
    settings and its mappings are as they were. *)
Theorem finalize_sets_production_settings (al G2 : string) (w w' : World) :
  finalizeNewIndexRelease SEP version env al G2 w = inr (tt, w') →
  ∃ ix ix',
    indices w !! G2 = Some ix ∧ indices w' !! G2 = Some ix'
    ∧ ix_mappings ix' = ix_mappings ix
    ∧ obj_get "number_of_replicas" (ix_settings ix')
      = Some (JStr (or_string (env !! "TD_SIRENE_INDEX_NB_REPLICAS") "3"))
    ∧ obj_get "refresh_interval" (ix_settings ix')
      = Some (JStr (or_string (env !! "TD_SIRENE_INDEX_REFRESH_INTERVAL")
                      "1s"))
    ∧ ∀ k, k ≠ "number_of_replicas" → k ≠ "refresh_interval" →
           obj_get k (ix_settings ix') = obj_get k (ix_settings ix).
Proof.
  intros Hrun.
  destruct (finalize_inv _ _ _ _ _ _ _ Hrun) as [[ix Hix] Hsound].
  destruct (finalize_run SEP version env al G2 w (mk_is_Some _ _ Hix) Hsound)
    as (w'' & Hrun' & _ & Hlook).
  rewrite Hrun in Hrun'. injection Hrun' as <-.
  exists ix, (settle_settings env ix). split; [done|]. split.
  { rewrite Hlook, decide_False, decide_True, Hix; [done..|].
    destruct (older_sorted SEP version w al G2) as [Hs Hn].
    intros [HG _]%removelast_sorted; [|done..].
    apply older_spec in HG. tauto. }
  split; [done|]. unfold settle_settings. cbn [ix_settings].
  rewrite !final_settings_get.
  split; [done|]. split; [done|].
  intros k H1 H2. rewrite final_settings_get.
  by rewrite !decide_False.
Qed.

(** A list without repetition whose elements are all equal has at most
    one element: [pop] empties it. *)
Lemma removelast_all_equal (l : list string) :
  NoDup l → (∀ x y, x ∈ l → y ∈ l → x = y) → removelast l = [].
Proof.
  destruct l as [|a [|b l]]; [done..|].
  intros Hn Heq. exfalso.
  apply NoDup_cons in Hn as [Hn _]. apply Hn.
  rewrite (Heq a b); [by left|by left|by right; left].
Qed.

(** X18. Releasing the same generation again changes neither the indices nor
    the binding of the alias: the second run repoints the alias to the
    generation it already resolves to and finds nothing to delete. *)
Theorem finalize_twice (al G2 : string) (w w1 : World) :
  finalizeNewIndexRelease SEP version env al G2 w = inr (tt, w1) →
  ∃ w2,
    finalizeNewIndexRelease SEP version env al G2 w1 = inr (tt, w2)
    ∧ indices w2 = indices w1
    ∧ Client.bound w2 al = Client.bound w1 al.
Proof.
  intros Hrun.
  destruct (finalize_inv _ _ _ _ _ _ _ Hrun) as [HG2 Hsound].
  destruct (finalize_run SEP version env al G2 w HG2 Hsound)
    as (w1' & Hrun' & Hb1 & Hix1).
  rewrite Hrun in Hrun'. injection Hrun' as <-.
  destruct (older_sorted SEP version w al G2) as [Hs Hn].
  assert (G2 ∉ removelast (older SEP version w al G2)) as HnG.
  { intros [HG _]%removelast_sorted; [|done..].
    apply older_spec in HG. tauto. }
  assert (indices w1 !! G2 = settle_settings env <$> indices w !! G2) as HG1.
  { by rewrite Hix1, decide_False, decide_True. }
  assert (is_Some (indices w1 !! G2)) as HG2'.
  { rewrite HG1. by apply fmap_is_Some. }
  assert (alias_sound w1 al) as Hsound1.
  { intros g. rewrite Hb1. by intros ->%elem_of_singleton. }
  destruct (finalize_run SEP version env al G2 w1 HG2' Hsound1)
    as (w2 & Hrun2 & Hb2 & Hix2).
  exists w2. split; [done|]. split; [|by rewrite Hb1, Hb2].
  assert (removelast (older SEP version w1 al G2) = []) as Hnone.
  { destruct (older_sorted SEP version w1 al G2) as [Hs1 Hn1].
    apply removelast_all_equal; [done|].
    assert (∀ x, x ∈ older SEP version w1 al G2 →
                 x ∈ older SEP version w al G2
                 ∧ x ∉ removelast (older SEP version w al G2)) as Hsurv.
    { intros x (Hex & Hm & Hne)%older_spec.
      rewrite Hix1 in Hex. case_decide as Hd; [by destruct Hex|].
      rewrite decide_False in Hex by done.
      split; [|done]. apply older_spec. done. }
    intros x y [Hx Hxl]%Hsurv [Hy Hyl]%Hsurv.
    apply (anti_symm String.le).
    - by apply (removelast_sorted_max _ Hs Hn y Hy).
    - by apply (removelast_sorted_max _ Hs Hn x Hx). }
  apply map_eq. intros g. rewrite Hix2, Hnone.
  rewrite decide_False by apply not_elem_of_nil.
  case_decide as Hg; [|done]. subst g.
  rewrite HG1. destruct (indices w !! G2) as [ix|]; [|done]. simpl.
  by rewrite settle_settings_idem.
Qed.

(** X19. A release cycle. The generation created for a run is not reachable
    through the alias until the release; the release then succeeds, the
    alias resolves to the new generation alone, and the refresh and
    replica settings written at creation are replaced by those of
    production, whatever settings the caller supplied. *)
Theorem release_cycle (indexConfig : IndexProcessConfig) (now : Z)
    (w : World) :
  let indexName := getIndexVersionName SEP version indexConfig now in
  indices w !! indexName = None → alias_sound w (alias indexConfig) →
  ∃ w1 w2 ix,
    createIndexRelease SEP version indexConfig now w = inr (indexName, w1)
    ∧ (indexName ∉ Client.bound w1 (alias indexConfig))
    ∧ finalizeNewIndexRelease SEP version env (alias indexConfig) indexName w1
      = inr (tt, w2)
    ∧ Client.bound w2 (alias indexConfig) = {[indexName]}
    ∧ indices w2 !! indexName = Some ix
    ∧ obj_get "number_of_replicas" (ix_settings ix)
      = Some (JStr (or_string (env !! "TD_SIRENE_INDEX_NB_REPLICAS") "3"))
    ∧ obj_get "refresh_interval" (ix_settings ix)
      = Some (JStr (or_string (env !! "TD_SIRENE_INDEX_REFRESH_INTERVAL")
                      "1s")).
Proof.
  intros indexName Hfree Hsound.
  set (ix0 := mkIndexState (as_obj (obj_get "mappings" (create_body indexConfig)))
                (as_obj (obj_get "settings" (create_body indexConfig)))).
  set (w1 := mkWorld (<[indexName := ix0]> (indices w)) (bindings w)
               (logged w ++ [InfoCreated indexName])).
  assert ((createIndexRelease SEP version indexConfig now w)
          = inr (indexName, w1)) as Hcreate.
  { unfold createIndexRelease, mbind, admin_bind, Client.indices_create.
    fold indexName. by rewrite Hfree. }
  assert (indices w1 !! indexName = Some ix0) as Hix0
    by apply lookup_insert_eq.
  assert (alias_sound w1 (alias indexConfig)) as Hsound1.
  { intros g Hg. unfold w1. simpl.
    destruct (decide (g = indexName)) as [->|Hne].
    - rewrite lookup_insert_eq. eauto.
    - rewrite lookup_insert_ne by done. by apply Hsound. }
  destruct (finalize_run SEP version env (alias indexConfig) indexName w1
              (mk_is_Some _ _ Hix0) Hsound1) as (w2 & Hrun & Hb & Hlook).
  exists w1, w2, (settle_settings env ix0).
  split; [done|]. split.
  { intros Hin. apply Hsound in Hin. rewrite Hfree in Hin.
    by destruct Hin. }
  split; [done|]. split; [done|]. split.
  { rewrite Hlook, decide_False, decide_True, Hix0; [done..|].
    destruct (older_sorted SEP version w1 (alias indexConfig) indexName)
      as [Hs Hn].
    intros [HG _]%removelast_sorted; [|done..].
    apply older_spec in HG. tauto. }
  unfold settle_settings. cbn [ix_settings].
  by rewrite !final_settings_get.
Qed.

End ReleaseFacts.

(** ** Numbers read from the environment *)

Lemma digit_char (d : N) :
  (d < 10)%N →
  is_digit (pretty_N_char d) = true
  ∧ digit_val (pretty_N_char d) = Z.of_N d.
Proof.
  intros Hd.
  assert (d = 0 ∨ d = 1 ∨ d = 2 ∨ d = 3 ∨ d = 4 ∨ d = 5 ∨ d = 6 ∨ d = 7
          ∨ d = 8 ∨ d = 9)%N as Hcases by lia.
  repeat (destruct Hcases as [->|Hcases]; [done|]). by subst.
Qed.

Lemma digit_not_sign (c : ascii) :
  is_digit c = true →
  Ascii.is_space c = false ∧ c ≠ "-"%char ∧ c ≠ "+"%char.
Proof.
  destruct c as [[] [] [] [] [] [] [] []]; try discriminate; done.
Qed.

Lemma parseInt_digit_head (c : ascii) (r : string) :
  is_digit c = true → parseInt (String c r) = digits None (String c r).
Proof.
  intros Hc. destruct (digit_not_sign c Hc) as (Hs & Hm & Hp).
  unfold parseInt. simpl. rewrite Hs.
  destruct c as [[] [] [] [] [] [] [] []]; try done.
Qed.

Lemma N_decimal_split (x : N) :
  10 * Z.of_N (x `div` 10)%N + Z.of_N (x `mod` 10)%N = Z.of_N x.
Proof.
  rewrite (N.div_mod x 10) at 3 by done.
  rewrite N2Z.inj_add, N2Z.inj_mul. done.
Qed.

Lemma pretty_N_go_digits (x : N) : ∀ s,
  (0 < x)%N →
  digits None (pretty_N_go x s) = digits (Some (Z.of_N x)) s
  ∧ ∃ c r, pretty_N_go x s = String c r ∧ is_digit c = true.
Proof.
  induction (N.lt_wf_0 x) as [x _ IH]. intros s Hx.
  rewrite pretty_N_go_step by done.
  destruct (digit_char (x `mod` 10)%N) as [Hd Hv];
    [by apply N.mod_lt|].
  destruct (decide (x `div` 10 = 0)%N) as [H0|H0].
  - rewrite H0, pretty_N_go_0. simpl. rewrite Hd, Hv. split; [|eauto].
    f_equal. f_equal. rewrite <- (N_decimal_split x), H0. done.
  - destruct (IH (x `div` 10)%N) with (s := String (pretty_N_char (x `mod` 10)) s)
      as [Hgo Hhead]; [by apply N.div_lt|by apply N.neq_0_lt_0|].
    split; [|done]. rewrite Hgo. simpl. rewrite Hd, Hv.
    f_equal. f_equal. simpl. apply N_decimal_split.
Qed.

Lemma parseInt_pretty_N (x : N) : parseInt (pretty x) = Some (Z.of_N x).
Proof.
  unfold pretty, pretty_N. case_decide as H0; [by subst|].
  destruct (pretty_N_go_digits x "") as [Hgo (c & r & Heq & Hc)]; [lia|].
  rewrite Heq, parseInt_digit_head, <- Heq, Hgo by done. done.
Qed.

(** Reading back the decimal numeral of an integer gives the integer. *)
Lemma parseInt_pretty (n : Z) : parseInt (pretty n) = Some n.
Proof.
  destruct n as [|p|p].
  - done.
  - apply (parseInt_pretty_N (Npos p)).
  - change (pretty (Z.neg p)) with (String "-"%char (pretty (Npos p))).
    unfold parseInt. simpl.
    pose proof (parseInt_pretty_N (Npos p)) as Hp.
    unfold pretty, pretty_N in Hp |- *. rewrite decide_False in Hp |- * by done.
    destruct (pretty_N_go_digits (Npos p) "") as [Hgo _]; [lia|].
    rewrite Hgo. done.
Qed.

Lemma pretty_Z_not_empty (n : Z) : pretty n ≠ "".
Proof.
  intros H. pose proof (parseInt_pretty n) as Hp. by rewrite H in Hp.
Qed.

(** X20. The chunk size is the number written in [INDEX_CHUNK_SIZE], for a
    decimal numeral of magnitude at most [2 ^ 53], except that 0 gives
    10000. *)
Theorem CHUNK_SIZE_of_numeral (env : Env) (n : Z) :
  - 2 ^ 53 ≤ n ≤ 2 ^ 53 →
  env !! "INDEX_CHUNK_SIZE" = Some (pretty n) →
  CHUNK_SIZE env = if n =? 0 then 10000 else n.
Proof.
  intros _ H. unfold CHUNK_SIZE. rewrite H. simpl. by rewrite parseInt_pretty.
Qed.

(** X21. The concurrency cap is the number written in
    [TD_SIRENE_INDEX_MAX_CONCURRENT_REQUESTS], for a decimal numeral of
    magnitude at most [2 ^ 53], whatever its sign. *)
Theorem maxConcurrentRequests_of_numeral (env : Env) (n : Z) :
  - 2 ^ 53 ≤ n ≤ 2 ^ 53 →
  env !! "TD_SIRENE_INDEX_MAX_CONCURRENT_REQUESTS" = Some (pretty n) →
  maxConcurrentRequests env = n.
Proof.
  intros _ H. unfold maxConcurrentRequests. rewrite H. unfold or_string.
  rewrite decide_False by apply pretty_Z_not_empty.
  by rewrite parseInt_pretty.
Qed.

(** X3. A negative number in [INDEX_CHUNK_SIZE] is taken as the chunk size,
    and with it the dispatcher never returns on a batch that is not
    empty: the loop offset only decreases. *)
Theorem negative_chunk_size_never_returns (env : Env) (n M : Z)
    (body : list Line) (fuel : nat) (sch : list (list nat)) :
  env !! "INDEX_CHUNK_SIZE" = Some (pretty n) → n < 0 → body ≠ [] →
  bulkIndexByChunks (CHUNK_SIZE env) M body fuel sch = None.
Proof.
  intros H Hn Hb. apply bulkIndexByChunks_never_ends; [|done].
  unfold CHUNK_SIZE. rewrite H. simpl. rewrite parseInt_pretty. simpl.
  destruct (Z.eqb_spec n 0); lia.
Qed.

(** ** Instances of the further properties *)

Lemma bulkIndexByChunks_concurrent_witness :
  ∃ st,
    bulkIndexByChunks 2 2
      [sample_line "111"; sample_line "222"; sample_line "333"] 3 [] = Some st
    ∧ concat (started st)
      = [sample_line "111"; sample_line "222"; sample_line "333"]
    ∧ Z.of_nat (length (dispatched_bulk_calls plain_config st)) = 2.
Proof.
  destruct (bulkIndexByChunks_concurrent 2 2
              [sample_line "111"; sample_line "222"; sample_line "333"]
              plain_config []) as (st & Hrun & Hc & _ & Hn).
  - lia.
  - lia.
  - reflexivity.
  - exists st. split; [exact Hrun|]. split; [exact Hc|exact Hn].
Defined.


Lemma negative_chunk_size_never_returns_witness :
  bulkIndexByChunks (CHUNK_SIZE {["INDEX_CHUNK_SIZE" := "-5"]}) 2
    [sample_line "111"] 100 [] = None.
Proof.
  apply (negative_chunk_size_never_returns {["INDEX_CHUNK_SIZE" := "-5"]}
           (-5) 2 [sample_line "111"] 100 []).
  - reflexivity.
  - lia.
  - discriminate.
Defined.


Lemma dispatcher_drains_witness :
  ∃ st,
    bulkIndexByChunks 1 2 [sample_line "111"; sample_line "222"] 2 [] = Some st
    ∧ outstanding (trace st) = 0.
Proof.
  eexists. split; [reflexivity|].
  apply (dispatcher_drains 1 2 [sample_line "111"; sample_line "222"] 2 []).
  - right. lia.
  - reflexivity.
Defined.

Lemma error_logs_are_failed_outcomes_witness :
  ∃ evs,
    logBulkErrorsAndRetry rejecting_index "sirene-1.0.0-300" sample_response
      sample_body [] = ([] ++ evs, inr tt)
    ∧ error_logs evs
      = [mkBulkError 429 (Some "es_rejected_execution_exception")
           (Some (OpDoc {["siret" := "222"]}));
         mkBulkError 400 (Some "mapper_parsing_exception")
           (Some (OpDoc {["siret" := "333"]}))].
Proof.
  apply (error_logs_are_failed_outcomes rejecting_index "sirene-1.0.0-300"
           sample_response sample_body []).
  - reflexivity.
  - simpl. lia.
Defined.

Lemma retries_are_429_outcomes_witness :
  ∃ evs,
    logBulkErrorsAndRetry rejecting_index "sirene-1.0.0-300" sample_response
      sample_body [] = ([] ++ evs, inr tt)
    ∧ index_calls evs
      = [("sirene-1.0.0-300", Some "222", Some (OpDoc {["siret" := "222"]}))].
Proof.
  apply (retries_are_429_outcomes rejecting_index "sirene-1.0.0-300"
           sample_response sample_body []).
  - reflexivity.
  - simpl. lia.
Defined.

Lemma short_body_is_fatal_witness :
  requestBulkIndex overlong_bulk rejecting_index "sirene-1.0.0-300"
    (flat [sample_line "111"]) []
  = ([] ++ [EvCall (CallBulk (flat [sample_line "111"]));
            EvLog (ErrorFatal "sirene-1.0.0-300" TypeError)], inr tt).
Proof.
  apply (short_body_is_fatal rejecting_index overlong_bulk "sirene-1.0.0-300"
           overlong_response (flat [sample_line "111"]) 1 "index"
           (mkItem (Some 429) (Some "es_rejected_execution_exception")) []).
  - discriminate.
  - reflexivity.
  - reflexivity.
  - reflexivity.
  - discriminate.
  - reflexivity.
  - simpl. eauto.
  - simpl. lia.
  - simpl. constructor; [|constructor].
    intros op'. unfold failed_outcome. simpl.
    destruct (bool_decide (op' ≠ "")); [|reflexivity].
    destruct (decide ("index" = op')); reflexivity.
Defined.

Lemma request_retries_failed_lines_witness :
  ∃ evs,
    request sample_bulk rejecting_index "sirene-1.0.0-300" plain_config
      [sample_line "111"; sample_line "222"; sample_line "333"] []
    = ([] ++ [EvLog (InfoIndexing 3 "sirene-1.0.0-300");
              EvCall (CallBulk sample_body)] ++ evs, inr tt)
    ∧ index_calls evs
      = [("sirene-1.0.0-300", Some "222", Some (OpDoc {["siret" := "222"]}))].
Proof.
  apply (request_retries_failed_lines sample_bulk rejecting_index
           "sirene-1.0.0-300" plain_config
           [sample_line "111"; sample_line "222"; sample_line "333"]
           sample_response []).
  - reflexivity.
  - discriminate.
  - reflexivity.
  - reflexivity.
  - simpl. lia.
Defined.

Lemma request_returns_witness :
  dataFormatterFn plain_config = None
  ∧ (request sample_bulk rejecting_index "sirene-1.0.0-300" plain_config
       [sample_line "111"] []).2 = inr tt.
Proof.
  split; [reflexivity|].
  apply (request_returns sample_bulk rejecting_index "sirene-1.0.0-300"
           plain_config [sample_line "111"] []).
  reflexivity.
Defined.

Lemma format_lines_reading_witness :
  ∃ body,
    format_lines plain_config "sirene-1.0.0-300" 0 sample_records []
    = ([] ++ [EvLog (ErrorMalformed 0 "siret" {["nom" := "ACME"]})],
       inr body)
    ∧ body = [None; None; Some (sample_line "111")].
Proof.
  apply (format_lines_reading plain_config "sirene-1.0.0-300" sample_records
           eq_refl 0%nat []).
Defined.


Lemma finalize_sets_production_settings_witness :
  ∃ ix',
    indices released_world !! "sirene-1.0.0-300" = Some ix'
    ∧ obj_get "number_of_replicas" (ix_settings ix') = Some (JStr "3")
    ∧ obj_get "refresh_interval" (ix_settings ix') = Some (JStr "1s").
Proof.
  destruct (finalize_sets_production_settings "-" "1.0.0" ∅ "sirene"
              "sirene-1.0.0-300" staged_world released_world)
    as (ix & ix' & _ & Hix & _ & Hr & Hi & _).
  - vm_compute. reflexivity.
  - exists ix'. split; [exact Hix|]. split; [exact Hr|exact Hi].
Defined.

Lemma finalize_twice_witness :
  ∃ w2,
    finalizeNewIndexRelease "-" "1.0.0" ∅ "sirene" "sirene-1.0.0-300"
      released_world = inr (tt, w2)
    ∧ indices w2 = indices released_world.
Proof.
  destruct (finalize_twice "-" "1.0.0" ∅ "sirene" "sirene-1.0.0-300"
              staged_world released_world) as (w2 & Hrun & Hix & _).
  - vm_compute. reflexivity.
  - exists w2. split; [exact Hrun|exact Hix].
Defined.

Lemma release_cycle_witness :
  ∃ w1 w2,
    createIndexRelease "-" "1.0.0" sharded_config 1700000000000 staged_world
    = inr (getIndexVersionName "-" "1.0.0" sharded_config 1700000000000, w1)
    ∧ finalizeNewIndexRelease "-" "1.0.0" ∅ "sirene"
        (getIndexVersionName "-" "1.0.0" sharded_config 1700000000000) w1
      = inr (tt, w2)
    ∧ Client.bound w2 "sirene"
      = {[getIndexVersionName "-" "1.0.0" sharded_config 1700000000000]}.
Proof.
  destruct (release_cycle "-" "1.0.0" ∅ sharded_config 1700000000000
              staged_world) as (w1 & w2 & ix & Hc & _ & Hf & Hb & _).
  - vm_compute. reflexivity.
  - intros g Hg.
    assert (Client.bound staged_world (alias sharded_config)
            = {["sirene-1.0.0-100"]})
      as Hb by (vm_compute; reflexivity).
    rewrite Hb in Hg. apply elem_of_singleton in Hg. subst g.
    vm_compute. eauto.
  - exists w1, w2. split; [exact Hc|]. split; [exact Hf|exact Hb].
Defined.

Lemma CHUNK_SIZE_of_numeral_witness :
  CHUNK_SIZE {["INDEX_CHUNK_SIZE" := "2500"]} = 2500.
Proof.
  apply (CHUNK_SIZE_of_numeral {["INDEX_CHUNK_SIZE" := "2500"]} 2500).
  - lia.
  - reflexivity.
Defined.

Lemma maxConcurrentRequests_of_numeral_witness :
  maxConcurrentRequests {["TD_SIRENE_INDEX_MAX_CONCURRENT_REQUESTS" := "4"]}
  = 4.
Proof.
  apply (maxConcurrentRequests_of_numeral
           {["TD_SIRENE_INDEX_MAX_CONCURRENT_REQUESTS" := "4"]} 4).
  - lia.
  - reflexivity.
Defined.
